(** * graphb: query documents, argument values and their token streams

    A shallow embedding of [query.go] and of the argument file of the
    [graphb] package.  Go strings are byte strings ([string]); a [chan string]
    fed by a goroutine is the list of tokens it delivers before it is closed;
    a nil pointer or nil interface is [None]; a run-time panic inside a
    producing goroutine is the failure of the token computation. *)

From Stdlib Require Import ZArith List String Ascii Bool Lia DecimalString.
From Stdlib Require Import DecimalZ DecimalPos.
Import ListNotations.

Open Scope string_scope.
Open Scope list_scope.

Set Warnings "-register-all".

(** ** The parts of the Go library the package calls *)

Module Go.

(** The two bytes the package treats specially. *)
Definition dquote : ascii := "034"%char.
Definition backslash : ascii := "092"%char.

Definition str (c : ascii) : string := String c EmptyString.

(** [fmt.Sprintf("%t", b)]. *)
Definition fmt_t (b : bool) : string := if b then "true" else "false".

(** [fmt.Sprintf("%d", n)]: optional minus sign, then decimal digits. *)
Definition fmt_d (n : Z) : string := NilZero.string_of_int (Z.to_int n).

(** [strings.Join(toks, sep)] with the empty separator. *)
Definition join (toks : list string) : string := String.concat EmptyString toks.

(** [strings.ToLower] on the ASCII range; a byte outside ['A'..'Z'] is kept
    (the package applies it to operation keywords only). *)
Definition lower_byte (c : ascii) : ascii :=
  let n := nat_of_ascii c in
  if (65 <=? n)%nat && (n <=? 90)%nat then ascii_of_nat (n + 32) else c.

Fixpoint ToLower (s : string) : string :=
  match s with
  | EmptyString => EmptyString
  | String c rest => String (lower_byte c) (ToLower rest)
  end.

(** [strings.Replace(s, old, new, -1)] for a non-empty [old]: scan from the
    left, replace each non-overlapping occurrence.  [skip] counts the bytes
    of the occurrence just replaced that are still to be dropped. *)
Fixpoint replace_from (old new : string) (skip : nat) (s : string) : string :=
  match s with
  | EmptyString => EmptyString
  | String c rest =>
      match skip with
      | S k => replace_from old new k rest
      | O =>
          if prefix old s
          then new ++ replace_from old new (String.length old - 1) rest
          else String c (replace_from old new 0 rest)
      end
  end.

Definition Replace (s old new : string) : string := replace_from old new 0 s.

(** [time.Time], as the civil date, clock and zone offset (seconds east of
    UTC) that [Format] prints. *)
Record Time := mkTime {
  year : Z; month : Z; day : Z;
  hour : Z; minute : Z; second : Z;
  offset : Z
}.

(** [appendInt(x, width)] of package time: zero padded, sign first. *)
Fixpoint zeros (n : nat) : string :=
  match n with O => EmptyString | S k => String "0" (zeros k) end.

Definition pad (x : Z) (width : nat) : string :=
  let digits := fmt_d (Z.abs x) in
  (if (x <? 0)%Z then "-" else EmptyString)
    ++ zeros (width - String.length digits) ++ digits.

(** [t.Format(time.RFC3339)], layout [2006-01-02T15:04:05Z07:00]. *)
Definition zone (off : Z) : string :=
  let z := (Z.quot off 60)%Z in
  if (off =? 0)%Z then "Z"
  else (if (z <? 0)%Z then "-" else "+")
         ++ pad (Z.quot (Z.abs z) 60) 2 ++ ":" ++ pad (Z.rem (Z.abs z) 60) 2.

Definition FormatRFC3339 (t : Time) : string :=
  pad (year t) 4 ++ "-" ++ pad (month t) 2 ++ "-" ++ pad (day t) 2 ++ "T"
    ++ pad (hour t) 2 ++ ":" ++ pad (minute t) 2 ++ ":" ++ pad (second t) 2
    ++ zone (offset t).

End Go.

(** ** Regular expressions, as far as [validName] needs them *)

Module Regexp.

Inductive re : Type :=
| Void
| Eps
| Class (ranges : list (ascii * ascii))
| Cat (r1 r2 : re)
| Alt (r1 r2 : re)
| Star (r : re).

Definition in_range (c : ascii) (r : ascii * ascii) : bool :=
  (nat_of_ascii (fst r) <=? nat_of_ascii c)%nat
  && (nat_of_ascii c <=? nat_of_ascii (snd r))%nat.

Definition in_class (ranges : list (ascii * ascii)) (c : ascii) : bool :=
  existsb (in_range c) ranges.

Fixpoint nullable (r : re) : bool :=
  match r with
  | Void => false
  | Eps => true
  | Class _ => false
  | Cat r1 r2 => nullable r1 && nullable r2
  | Alt r1 r2 => nullable r1 || nullable r2
  | Star _ => true
  end.

(** Brzozowski derivative: what is left of [r] after reading [c]. *)
Fixpoint deriv (c : ascii) (r : re) : re :=
  match r with
  | Void => Void
  | Eps => Void
  | Class ranges => if in_class ranges c then Eps else Void
  | Cat r1 r2 =>
      if nullable r1
      then Alt (Cat (deriv c r1) r2) (deriv c r2)
      else Cat (deriv c r1) r2
  | Alt r1 r2 => Alt (deriv c r1) (deriv c r2)
  | Star r1 => Cat (deriv c r1) (Star r1)
  end.

(** [r.MatchString(s)] for an expression anchored as [^r$]: the whole of
    [s] has to match. *)
Fixpoint MatchString (r : re) (s : string) : bool :=
  match s with
  | EmptyString => nullable r
  | String c rest => MatchString (deriv c r) rest
  end.

End Regexp.

(** ** Data model *)

(** The operation type is a string type ([string(q.Type)] in [stringChan]). *)
Definition operationType : Type := string.

(** Modelled from the spec: the three operation type constants, declared in
    another file of the package ("operationType:
    enum{query, mutation, subscription}", printed as the lowercase keyword). *)
Definition TypeQuery : operationType := "query".
Definition TypeMutation : operationType := "mutation".
Definition TypeSubscription : operationType := "subscription".

(** Modelled from the spec: [isValidOperationType], "checks operationType is
    one of the three recognized kinds". *)
Definition isValidOperationType (t : operationType) : bool :=
  existsb (String.eqb t) [TypeQuery; TypeMutation; TypeSubscription].

(** Modelled from the spec: the regular expression [validName], the name
    grammar [^[_A-Za-z][_0-9A-Za-z]*$]. *)
Definition name_head : list (ascii * ascii) :=
  [("_", "_"); ("A", "Z"); ("a", "z")]%char.
Definition name_tail : list (ascii * ascii) :=
  [("_", "_"); ("0", "9"); ("A", "Z"); ("a", "z")]%char.
Definition validName : Regexp.re :=
  Regexp.Cat (Regexp.Class name_head) (Regexp.Star (Regexp.Class name_tail)).

(** [argumentValue] is an interface with one method, [stringChan]; its
    implementations are the thirteen wrapper types of the argument file.
    [Argument.Value] holds an interface value, so it may be nil. *)
Inductive argumentValue : Type :=
| argBool (v : bool)
| argInt (v : Z)
| argString (v : string)
| argQuotedString (v : string)
| argBlockString (v : string)
| argEnum (v : string)
| argTime (v : Go.Time)
| argBoolSlice (s : list bool)
| argIntSlice (s : list Z)
| argStringSlice (s : list string)
| argEnumSlice (s : list string)
| argumentCustom (s : list Argument)
| argArgSlice (s : list (list Argument))
with Argument : Type :=
| mkArgument (Name : string) (Value : option argumentValue).

Definition Name (a : Argument) : string :=
  match a with mkArgument n _ => n end.
Definition Value (a : Argument) : option argumentValue :=
  match a with mkArgument _ v => v end.

(** [Argument{}], the zero value. *)
Definition zeroArgument : Argument := mkArgument EmptyString None.

(** Modelled from the spec: the struct [Field], declared in another file of
    the package ("{name, alias: optional string, arguments: ordered sequence of
    Argument, subfields: ordered sequence of Field}").  A subfield slot is a
    pointer, as in [Query.Fields], and may be nil. *)
Inductive Field : Type :=
| mkField (FName : string) (Alias : string)
          (Arguments : list Argument) (SubFields : list (option Field)).

Record Query := mkQuery {
  QType : operationType;
  QName : string;
  Fields : list (option Field)
}.

(** A value held in an [interface{}]: its dynamic type and payload.  The type
    switch of [ArgumentAny] looks at the dynamic type only, so a defined type
    over [int] or a pointer to a [bool] is a shape of its own. *)
Inductive any : Type :=
| nil_any
| bool_any (v : bool)
| bools_any (v : list bool)
| int_any (v : Z)
| ints_any (v : list Z)
| string_any (v : string)
| strings_any (v : list string)
| time_any (v : Go.Time)
| int64_any (v : Z)
| uint_any (v : Z)
| float64_any (bits : Z)
| pointer_any (target : any)
| anys_any (v : list any)
| named_any (type_name : string) (underlying : any)
| argument_any (v : Argument).

(** The error values of the package, declared in another file (the fields are
    those the composite literals of [query.go] and of [ArgumentAny] fill in),
    and the wrapper [errors.WithStack] adds. *)
Inductive nameType : Type := operationName | fieldName | aliasName.

Inductive error : Type :=
| InvalidNameErr (Kind : nameType) (Name : string)
| InvalidOperationTypeErr (OpType : operationType)
| NilFieldErr
| ArgumentTypeNotSupportedErr (Value : any)
| withStack (err : error).

Definition WithStack (err : error) : error := withStack err.

(** [errors.Cause]: the error below the stack annotations. *)
Fixpoint Cause (err : error) : error :=
  match err with
  | withStack e => Cause e
  | e => e
  end.

(** ** Channels and goroutines *)

(** A [<-chan string] as its receiver sees it: the nil channel, a channel that
    was made and closed with nothing sent, or an unbuffered channel fed by a
    goroutine, which delivers its tokens in order and closes the channel
    ([Some toks]) or panics on the way ([None]). *)
Inductive Chan : Type :=
| NilChan
| ClosedChan
| Producer (toks : option (list string)).

(** What a Go function that ranges over a channel does in the end. *)
Inductive outcome (A : Type) : Type :=
| Returns (a : A)
| Panics
| Deadlocks.
Arguments Returns {A} a.
Arguments Panics {A}.
Arguments Deadlocks {A}.

(** [for str := range ch], collecting what is received. *)
Definition range_chan (ch : Chan) : outcome (list string) :=
  match ch with
  | NilChan => Deadlocks
  | ClosedChan => Returns []
  | Producer (Some toks) => Returns toks
  | Producer None => Panics
  end.

Definition bind {A B : Type} (m : option A) (k : A -> option B) : option B :=
  match m with
  | Some a => k a
  | None => None
  end.

Notation "x <- m ;; k" := (bind m (fun x => k))
  (at level 61, m at next level, right associativity).

(** The loop all list variants share:
    [for i, v := range s { if i != 0 { tokenChan <- "," }; body(v) }]. *)
Section RangeLoop.
Context {A : Type} (body : A -> option (list string)).

Fixpoint range_from (i : nat) (s : list A) : option (list string) :=
  match s with
  | [] => Some []
  | v :: rest =>
      toks <- body v ;;
      more <- range_from (S i) rest ;;
      Some ((if negb (i =? 0)%nat then [","] else []) ++ toks ++ more)
  end.
End RangeLoop.

(** ** Token streams of the argument values *)

(** [fmt.Sprintf(before + "%s" + after, v)]. *)
Definition fmt_s (before after v : string) : string :=
  (before ++ v ++ after)%string.

Definition quoted (v : string) : string :=
  fmt_s (Go.str Go.dquote) (Go.str Go.dquote) v.

(** The format of [argQuotedString] is a raw string literal: a quote, two
    backslashes and a quote before the verb, two backslashes and two quotes
    after it. *)
Definition quotedString_open : string :=
  String Go.dquote (String Go.backslash (String Go.backslash (Go.str Go.dquote))).
Definition quotedString_close : string :=
  String Go.backslash (String Go.backslash (String Go.dquote (Go.str Go.dquote))).

Definition blockString_quotes : string :=
  String Go.dquote (String Go.dquote (Go.str Go.dquote)).

Definition bracketed (open close : string) (inner : option (list string))
  : option (list string) :=
  toks <- inner ;; Some ([open] ++ toks ++ [close]).

Fixpoint argumentValue_stringChan (v : argumentValue) : option (list string) :=
  match v with
  | argBool b => Some [Go.fmt_t b]
  | argInt n => Some [Go.fmt_d n]
  | argString s => Some [quoted s]
  | argQuotedString s => Some [fmt_s quotedString_open quotedString_close s]
  | argBlockString s => Some [fmt_s blockString_quotes blockString_quotes s]
  | argEnum s => Some [s]
  | argTime t => Some [quoted (Go.FormatRFC3339 t)]
  | argBoolSlice s =>
      bracketed "[" "]" (range_from (fun b => Some [Go.fmt_t b]) 0 s)
  | argIntSlice s =>
      bracketed "[" "]" (range_from (fun n => Some [Go.fmt_d n]) 0 s)
  | argStringSlice s =>
      bracketed "[" "]" (range_from (fun x => Some [quoted x]) 0 s)
  | argEnumSlice s =>
      bracketed "[" "]" (range_from (fun x => Some [x]) 0 s)
  | argumentCustom s =>
      bracketed "{" "}" (range_from Argument_stringChan 0 s)
  | argArgSlice s =>
      bracketed "[" "]"
        (range_from
           (fun v => bracketed "{" "}" (range_from Argument_stringChan 0 v))
           0 s)
  end
with Argument_stringChan (a : Argument) : option (list string) :=
  match a with
  | mkArgument name None => None
  | mkArgument name (Some v) =>
      toks <- argumentValue_stringChan v ;; Some ([name; ":"] ++ toks)
  end.

(** ** Argument constructors *)

Definition ArgumentBool (name : string) (value : bool) : Argument :=
  mkArgument name (Some (argBool value)).
Definition ArgumentInt (name : string) (value : Z) : Argument :=
  mkArgument name (Some (argInt value)).
Definition ArgumentString (name : string) (value : string) : Argument :=
  mkArgument name (Some (argString value)).
Definition ArgumentQuotedString (name : string) (value : string) : Argument :=
  mkArgument name (Some (argQuotedString value)).
Definition ArgumentBlockString (name : string) (value : string) : Argument :=
  mkArgument name (Some (argBlockString value)).
Definition ArgumentEnum (name : string) (value : string) : Argument :=
  mkArgument name (Some (argEnum value)).
Definition ArgumentTime (name : string) (value : Go.Time) : Argument :=
  mkArgument name (Some (argTime value)).
Definition ArgumentBoolSlice (name : string) (values : list bool) : Argument :=
  mkArgument name (Some (argBoolSlice values)).
Definition ArgumentIntSlice (name : string) (values : list Z) : Argument :=
  mkArgument name (Some (argIntSlice values)).
Definition ArgumentStringSlice (name : string) (values : list string) : Argument :=
  mkArgument name (Some (argStringSlice values)).
Definition ArgumentEnumSlice (name : string) (values : list string) : Argument :=
  mkArgument name (Some (argEnumSlice values)).
Definition ArgumentCustomType (name : string) (values : list Argument) : Argument :=
  mkArgument name (Some (argumentCustom values)).
Definition ArgumentSlice (name : string) (values : list (list Argument)) : Argument :=
  mkArgument name (Some (argArgSlice values)).

(** The type switch of [ArgumentAny]. *)
Definition ArgumentAny (name : string) (value : any) : Argument * option error :=
  match value with
  | bool_any v => (ArgumentBool name v, None)
  | bools_any v => (ArgumentBoolSlice name v, None)
  | int_any v => (ArgumentInt name v, None)
  | ints_any v => (ArgumentIntSlice name v, None)
  | string_any v => (ArgumentString name v, None)
  | strings_any v => (ArgumentStringSlice name v, None)
  | time_any v => (ArgumentTime name v, None)
  | _ => (zeroArgument, Some (ArgumentTypeNotSupportedErr value))
  end.

(** ** Fields *)

Definition FName (f : Field) : string :=
  match f with mkField n _ _ _ => n end.
Definition Alias (f : Field) : string :=
  match f with mkField _ a _ _ => a end.
Definition Arguments (f : Field) : list Argument :=
  match f with mkField _ _ args _ => args end.
Definition SubFields (f : Field) : list (option Field) :=
  match f with mkField _ _ _ subs => subs end.

Definition is_empty (s : string) : bool :=
  match s with EmptyString => true | _ => false end.

(** Modelled from the spec: [Field.stringChan], defined in another file of
    the package ("emits optional alias, [:] if aliased, field name, then if
    arguments exist [(] + comma-joined argument token streams + [)], then if
    subfields exist [{] + comma-joined subfield token streams + [}]").
    Calling the method of a nil subfield panics. *)
Fixpoint Field_stringChan (f : Field) : option (list string) :=
  match f with
  | mkField name alias args subs =>
      argToks <-
        match args with
        | [] => Some []
        | _ => bracketed "(" ")" (range_from Argument_stringChan 0 args)
        end ;;
      subToks <-
        match subs with
        | [] => Some []
        | _ =>
            bracketed "{" "}"
              (range_from
                 (fun slot =>
                    match slot with
                    | None => None
                    | Some sub => Field_stringChan sub
                    end)
                 0 subs)
        end ;;
      Some ((if is_empty alias then [] else [alias; ":"])
              ++ [name] ++ argToks ++ subToks)
  end.

(** Modelled from the spec: [Field.check], defined in another file of the
    package ("recursively checks this field's name (if aliased, the alias;
    otherwise the field name) against the name grammar, then validates every
    subfield", first failure wins; "MissingField: a field slot in a Query or
    Field's subfield list is unset/absent"). *)
Fixpoint Field_check (f : Field) : option error :=
  match f with
  | mkField name alias _ subs =>
      let checked := if is_empty alias then name else alias in
      let kind := if is_empty alias then fieldName else aliasName in
      if negb (Regexp.MatchString validName checked)
      then Some (InvalidNameErr kind checked)
      else
        (fix each (slots : list (option Field)) : option error :=
           match slots with
           | [] => None
           | None :: _ => Some NilFieldErr
           | Some sub :: rest =>
               match Field_check sub with
               | Some err => Some err
               | None => each rest
               end
           end) subs
  end.

(** ** Queries *)

(** [Query.stringChan]: the tokens its goroutine sends.  [field.stringChan()]
    on a nil field is a nil pointer dereference. *)
Fixpoint fields_tokens (fs : list (option Field)) : option (list string) :=
  match fs with
  | [] => Some []
  | None :: _ => None
  | Some field :: rest =>
      strs <- Field_stringChan field ;;
      more <- fields_tokens rest ;;
      Some (strs ++ [","] ++ more)
  end.

Definition Query_stringChan (q : Query) : option (list string) :=
  fs <- fields_tokens (Fields q) ;;
  Some ([Go.ToLower (QType q)]
          ++ (if negb (is_empty (QName q)) then [" "; QName q] else [])
          ++ ["{"] ++ fs ++ ["}"]).

Definition Query_checkName (q : Query) : option error :=
  if negb (is_empty (QName q)) && negb (Regexp.MatchString validName (QName q))
  then Some (WithStack (InvalidNameErr operationName (QName q)))
  else None.

Definition Query_check (q : Query) : option error :=
  if negb (isValidOperationType (QType q))
  then Some (WithStack (InvalidOperationTypeErr (QType q)))
  else
    match Query_checkName q with
    | Some err => Some (WithStack err)
    | None => None
    end.

(** The loop of [StringChan] over [q.Fields]; [Some err] is an early return. *)
Fixpoint StringChan_fields (fs : list (option Field)) : option error :=
  match fs with
  | [] => None
  | None :: _ => Some (WithStack NilFieldErr)
  | Some f :: rest =>
      match Field_check f with
      | Some err => Some (WithStack err)
      | None => StringChan_fields rest
      end
  end.

Definition StringChan (q : Query) : Chan * option error :=
  match Query_check q with
  | Some err => (ClosedChan, Some (WithStack err))
  | None =>
      match StringChan_fields (Fields q) with
      | Some err => (ClosedChan, Some err)
      | None => (Producer (Query_stringChan q), None)
      end
  end.

(** Modelled from the spec: [StringFromChan], defined in another file of
    the package ("drains the full token sequence into one string"). *)
Definition StringFromChan (ch : Chan) : outcome string :=
  match range_chan ch with
  | Returns toks => Returns (Go.join toks)
  | Panics => Panics
  | Deadlocks => Deadlocks
  end.

Definition json_open : string :=
  ("{" ++ quoted "query" ++ ":" ++ Go.str Go.dquote)%string.
Definition json_close : string :=
  (Go.str Go.dquote ++ "}")%string.
Definition escaped_quote : string :=
  String Go.backslash (Go.str Go.dquote).

Definition JsonBody (q : Query) : outcome (string * option error) :=
  match StringChan q with
  | (_, Some err) => Returns (EmptyString, Some (WithStack err))
  | (strCh, None) =>
      match StringFromChan strCh with
      | Returns s =>
          Returns (fmt_s json_open json_close
                     (Go.Replace s (Go.str Go.dquote) escaped_quote), None)
      | Panics => Panics
      | Deadlocks => Deadlocks
      end
  end.

(** [MakeQuery], [SetName], [SetFields], [AddFields]. *)
Definition MakeQuery (t : operationType) : Query := mkQuery t EmptyString [].
Definition SetName (q : Query) (name : string) : Query :=
  mkQuery (QType q) name (Fields q).
Definition SetFields (q : Query) (fields : list (option Field)) : Query :=
  mkQuery (QType q) (QName q) fields.
Definition AddFields (q : Query) (fields : list (option Field)) : Query :=
  mkQuery (QType q) (QName q) (Fields q ++ fields).

(** ** JSON texts (RFC 8259), to judge what [JsonBody] returns

    A recogniser over bytes; inside a string every byte from 0x20 up that is
    neither a quote nor a backslash is taken as it is (UTF-8 well-formedness
    is not looked at). *)

Module Json.

Definition is_ws (c : ascii) : bool :=
  let n := nat_of_ascii c in
  (n =? 32)%nat || (n =? 9)%nat || (n =? 10)%nat || (n =? 13)%nat.

Fixpoint skip_ws (s : string) : string :=
  match s with
  | String c rest => if is_ws c then skip_ws rest else s
  | EmptyString => s
  end.

Definition is_digit (c : ascii) : bool :=
  Regexp.in_class [("0", "9")]%char c.
Definition is_hex (c : ascii) : bool :=
  Regexp.in_class [("0", "9"); ("a", "f"); ("A", "F")]%char c.
Definition is_control (c : ascii) : bool := (nat_of_ascii c <? 32)%nat.

(** The bytes that may follow a backslash, [u] apart. *)
Definition is_escape (c : ascii) : bool :=
  existsb (Ascii.eqb c) [Go.dquote; Go.backslash; "/"; "b"; "f"; "n"; "r"; "t"]%char.

(** A string after its opening quote: what follows the closing quote. *)
Fixpoint string_rest (s : string) : option string :=
  match s with
  | EmptyString => None
  | String c r =>
      if Ascii.eqb c Go.dquote then Some r
      else if Ascii.eqb c Go.backslash then
        match r with
        | String e r1 =>
            if is_escape e then string_rest r1
            else if Ascii.eqb e "u" then
              match r1 with
              | String h1 (String h2 (String h3 (String h4 r2))) =>
                  if is_hex h1 && is_hex h2 && is_hex h3 && is_hex h4
                  then string_rest r2
                  else None
              | _ => None
              end
            else None
        | EmptyString => None
        end
      else if is_control c then None
      else string_rest r
  end.

Fixpoint digits (s : string) : string :=
  match s with
  | String c rest => if is_digit c then digits rest else s
  | EmptyString => s
  end.

(** At least one digit, then as many as follow. *)
Definition digits1 (s : string) : option string :=
  match s with
  | String c rest => if is_digit c then Some (digits rest) else None
  | EmptyString => None
  end.

Definition exponent (s : string) : option string :=
  match s with
  | String e r =>
      if Ascii.eqb e "e" || Ascii.eqb e "E" then
        match r with
        | String sign r1 =>
            if Ascii.eqb sign "+" || Ascii.eqb sign "-" then digits1 r1
            else digits1 r
        | EmptyString => None
        end
      else Some s
  | EmptyString => Some s
  end.

Definition fraction (s : string) : option string :=
  match s with
  | String dot r =>
      if Ascii.eqb dot "." then
        match digits1 r with
        | Some r1 => exponent r1
        | None => None
        end
      else exponent s
  | EmptyString => Some s
  end.

Definition number (s : string) : option string :=
  let unsigned :=
    match s with
    | String c r => if Ascii.eqb c "-" then r else s
    | EmptyString => s
    end in
  match unsigned with
  | String c r =>
      if Ascii.eqb c "0" then fraction r
      else if is_digit c then fraction (digits r)
      else None
  | EmptyString => None
  end.

Fixpoint strip (word s : string) : option string :=
  match word, s with
  | EmptyString, _ => Some s
  | String a w, String b r => if Ascii.eqb a b then strip w r else None
  | String _ _, EmptyString => None
  end.

(** A value, the members of an object after its first brace, the elements
    of an array after its first bracket: what follows them.  Every call
    below another has consumed a byte, so fuel beyond the length of the
    text is never used up. *)
Fixpoint value (fuel : nat) (s : string) : option string :=
  match fuel with
  | O => None
  | S fuel' =>
      match skip_ws s with
      | EmptyString => None
      | String c r =>
          if Ascii.eqb c "{" then
            match skip_ws r with
            | String c1 r1 =>
                if Ascii.eqb c1 "}" then Some r1 else members fuel' r
            | EmptyString => None
            end
          else if Ascii.eqb c "[" then
            match skip_ws r with
            | String c1 r1 =>
                if Ascii.eqb c1 "]" then Some r1 else elements fuel' r
            | EmptyString => None
            end
          else if Ascii.eqb c Go.dquote then string_rest r
          else if Ascii.eqb c "t" then strip "rue" r
          else if Ascii.eqb c "f" then strip "alse" r
          else if Ascii.eqb c "n" then strip "ull" r
          else number (String c r)
      end
  end
with members (fuel : nat) (s : string) : option string :=
  match fuel with
  | O => None
  | S fuel' =>
      match skip_ws s with
      | String c r =>
          if Ascii.eqb c Go.dquote then
            match string_rest r with
            | Some r1 =>
                match skip_ws r1 with
                | String colon r2 =>
                    if Ascii.eqb colon ":" then
                      match value fuel' r2 with
                      | Some r3 =>
                          match skip_ws r3 with
                          | String c3 r4 =>
                              if Ascii.eqb c3 "," then members fuel' r4
                              else if Ascii.eqb c3 "}" then Some r4
                              else None
                          | EmptyString => None
                          end
                      | None => None
                      end
                    else None
                | EmptyString => None
                end
            | None => None
            end
          else None
      | EmptyString => None
      end
  end
with elements (fuel : nat) (s : string) : option string :=
  match fuel with
  | O => None
  | S fuel' =>
      match value fuel' s with
      | Some r =>
          match skip_ws r with
          | String c r1 =>
              if Ascii.eqb c "," then elements fuel' r1
              else if Ascii.eqb c "]" then Some r1
              else None
          | EmptyString => None
          end
      | None => None
      end
  end.

(** The text is one JSON value, white space around it allowed. *)
Definition valid (s : string) : bool :=
  match value (S (String.length s)) s with
  | Some rest => match skip_ws rest with EmptyString => true | _ => false end
  | None => false
  end.

End Json.

(** ** What the documentation says, as definitions to compare with *)

(** The rendered text of a stream is the concatenation of its tokens. *)
Definition text_of (toks : option (list string)) : option string :=
  option_map Go.join toks.

Definition value_text (v : argumentValue) : option string :=
  text_of (argumentValue_stringChan v).
Definition Argument_text (a : Argument) : option string :=
  text_of (Argument_stringChan a).

(** All the streams, if none of them fails. *)
Fixpoint sequence {A : Type} (l : list (option A)) : option (list A) :=
  match l with
  | [] => Some []
  | x :: rest => a <- x ;; more <- sequence rest ;; Some (a :: more)
  end.

(** Token streams with one separator strictly between consecutive streams. *)
Fixpoint joined (sep : string) (streams : list (list string)) : list string :=
  match streams with
  | [] => []
  | [ts] => ts
  | ts :: rest => ts ++ [sep] ++ joined sep rest
  end.

(** Token streams with one separator after each stream. *)
Definition terminated (sep : string) (streams : list (list string)) : list string :=
  flat_map (fun ts => ts ++ [sep]) streams.

Definition comma_joined (open close : string) (streams : list (option (list string)))
  : option (list string) :=
  tss <- sequence streams ;; Some ([open] ++ joined "," tss ++ [close]).

(** The closed set of shapes [ArgumentAny] accepts. *)
Definition supported (v : any) : bool :=
  match v with
  | bool_any _ | bools_any _ | int_any _ | ints_any _
  | string_any _ | strings_any _ | time_any _ => true
  | _ => false
  end.

(** [ArgumentAny] agrees with an explicit constructor: no error, same text. *)
Definition agrees (r : Argument * option error) (explicit : Argument) : Prop :=
  snd r = None /\ Argument_text (fst r) = Argument_text explicit.

(** The query of the round-trip example: [query Foo] with the one field
    [bar(n:1)]. *)
Definition q_foo : Query :=
  SetFields (SetName (MakeQuery TypeQuery) "Foo")
    [Some (mkField "bar" EmptyString [ArgumentInt "n" 1] [])].

Definition field_stream (slot : option Field) : option (list string) :=
  match slot with
  | None => None
  | Some f => Field_stringChan f
  end.

(** A quote, one backslash, a quote, the content, one backslash, two quotes:
    the quoted string with a single level of escaping. *)
Definition single_escaped (v : string) : string :=
  fmt_s (String Go.dquote escaped_quote)
        (String Go.backslash (String Go.dquote (Go.str Go.dquote))) v.

(** The name grammar [/^[_A-Za-z][_0-9A-Za-z]*$/], read off byte by byte. *)
Definition name_start (c : ascii) : Prop :=
  let n := nat_of_ascii c in
  n = 95 \/ (65 <= n <= 90) \/ (97 <= n <= 122).

Definition name_continue (c : ascii) : Prop :=
  name_start c \/ (48 <= nat_of_ascii c <= 57).

Fixpoint all_continue (s : string) : Prop :=
  match s with
  | EmptyString => True
  | String c rest => name_continue c /\ all_continue rest
  end.

Definition grammatical (s : string) : Prop :=
  match s with
  | EmptyString => False
  | String c rest => name_start c /\ all_continue rest
  end.

Fixpoint forallb_string (p : ascii -> bool) (s : string) : bool :=
  match s with
  | EmptyString => true
  | String c rest => p c && forallb_string p rest
  end.

(** Token streams with one separator before each stream. *)
Definition led (sep : string) (streams : list (list string)) : list string :=
  flat_map (fun ts => sep :: ts) streams.

(** The loop of [Field.check] over the subfield slots, by itself. *)
Fixpoint check_slots (slots : list (option Field)) : option error :=
  match slots with
  | [] => None
  | None :: _ => Some NilFieldErr
  | Some sub :: rest =>
      match Field_check sub with
      | Some err => Some err
      | None => check_slots rest
      end
  end.

(** Some slot of the tree is nil. *)
Fixpoint Field_has_nil (f : Field) : bool :=
  match f with
  | mkField _ _ _ subs =>
      existsb (fun slot =>
                 match slot with
                 | None => true
                 | Some sub => Field_has_nil sub
                 end) subs
  end.

Definition slot_has_nil (slot : option Field) : bool :=
  match slot with
  | None => true
  | Some f => Field_has_nil f
  end.

Definition Query_has_nil (q : Query) : bool := existsb slot_has_nil (Fields q).

(** Every field of the tree passes the name check. *)
Fixpoint Field_names_ok (f : Field) : bool :=
  match f with
  | mkField name alias _ subs =>
      Regexp.MatchString validName (if is_empty alias then name else alias)
      && forallb (fun slot =>
                    match slot with
                    | None => true
                    | Some sub => Field_names_ok sub
                    end) subs
  end.

Definition slot_names_ok (slot : option Field) : bool :=
  match slot with
  | None => true
  | Some f => Field_names_ok f
  end.

(** The operation types the documentation recognises. *)
Definition recognised : list operationType := ["query"; "mutation"; "subscription"].

(** Every [Argument] of the tree holds a value (none is the zero Argument). *)
Fixpoint argumentValue_valued (v : argumentValue) : bool :=
  match v with
  | argumentCustom s => forallb Argument_valued s
  | argArgSlice s => forallb (forallb Argument_valued) s
  | _ => true
  end
with Argument_valued (a : Argument) : bool :=
  match a with
  | mkArgument _ None => false
  | mkArgument _ (Some v) => argumentValue_valued v
  end.

Fixpoint Field_valued (f : Field) : bool :=
  match f with
  | mkField _ _ args subs =>
      forallb Argument_valued args
      && forallb (fun slot =>
                    match slot with
                    | None => true
                    | Some sub => Field_valued sub
                    end) subs
  end.

Definition slot_valued (slot : option Field) : bool :=
  match slot with
  | None => true
  | Some f => Field_valued f
  end.

Definition Query_valued (q : Query) : bool := forallb slot_valued (Fields q).

(** Every double quote gets a backslash before it; nothing else changes. *)
Fixpoint escape_quotes (s : string) : string :=
  match s with
  | EmptyString => EmptyString
  | String c rest =>
      if Ascii.eqb c Go.dquote
      then String Go.backslash (String Go.dquote (escape_quotes rest))
      else String c (escape_quotes rest)
  end.

(** A byte that is neither a backslash nor a control character. *)
Definition plain_byte (c : ascii) : bool :=
  negb (Ascii.eqb c Go.backslash) && negb (Json.is_control c).

(** A query with a nil slot and an operation name that is not a name, and two
    queries that pass validation. *)
Definition q_bad_name_nil : Query := mkQuery TypeQuery "my query" [None].
Definition q_backslash : Query :=
  SetFields (MakeQuery TypeQuery)
    [Some (mkField "f" EmptyString [ArgumentString "x" (Go.str Go.backslash)] [])].
Definition q_zero_argument : Query :=
  SetFields (MakeQuery TypeQuery)
    [Some (mkField "f" EmptyString [zeroArgument] [])].

(** The text that sits between two elements of a rendered list of strings:
    the quote closing one, the comma, the quote opening the next. *)
Definition quote_comma_quote : string :=
  String Go.dquote (String "," (Go.str Go.dquote)).

(** Reading a decimal token back into an integer. *)
Definition parse_d (s : string) : option Z :=
  option_map Z.of_int (NilZero.int_of_string s).

Definition injective {A B : Type} (f : A -> B) : Prop :=
  forall x y, f x = f y -> x = y.

(** Taking the backslash off every quote that has one before it. *)
Fixpoint unescape_quotes (s : string) : string :=
  match s with
  | EmptyString => EmptyString
  | String c rest =>
      match rest with
      | String d rest' =>
          if Ascii.eqb c Go.backslash && Ascii.eqb d Go.dquote
          then String Go.dquote (unescape_quotes rest')
          else String c (unescape_quotes rest)
      | EmptyString => String c EmptyString
      end
  end.

(** Every double quote of the text has a backslash right before it. *)
Fixpoint quotes_escaped_from (after_backslash : bool) (s : string) : bool :=
  match s with
  | EmptyString => true
  | String c rest =>
      (negb (Ascii.eqb c Go.dquote) || after_backslash)
      && quotes_escaped_from (Ascii.eqb c Go.backslash) rest
  end.

Definition quotes_escaped (s : string) : bool := quotes_escaped_from false s.

(** What [stringChan] of a query sends before the streams of its fields. *)
Definition Query_header (q : Query) : list string :=
  [Go.ToLower (QType q)]
    ++ (if negb (is_empty (QName q)) then [" "; QName q] else [])
    ++ ["{"].

(** * Properties *)

Example fmt_d_0 : Go.fmt_d 0 = "0".
Proof. reflexivity. Qed.
Example fmt_d_neg : Go.fmt_d (-42) = "-42".
Proof. reflexivity. Qed.
Example lower_ex : Go.ToLower "QuErY_1" = "query_1".
Proof. reflexivity. Qed.
Example replace_ex : Go.Replace "abcabca" "ca" "X" = "abXbX".
Proof. reflexivity. Qed.
Example rfc_ex :
  Go.FormatRFC3339 (Go.mkTime 2018 3 9 7 5 0 (-18000)) = "2018-03-09T07:05:00-05:00".
Proof. reflexivity. Qed.

(** ** Strings and token lists *)

Section StringFacts.
Local Open Scope string_scope.

Lemma append_nil_r (s : string) : s ++ EmptyString = s.
Proof. induction s as [| c s IH]; simpl; [| rewrite IH]; reflexivity. Qed.

Lemma append_assoc (s t u : string) : (s ++ t) ++ u = s ++ (t ++ u).
Proof. induction s as [| c s IH]; simpl; [| rewrite IH]; reflexivity. Qed.

Lemma length_append (s t : string) :
  String.length (s ++ t) = (String.length s + String.length t)%nat.
Proof. induction s as [| c s IH]; simpl; [| rewrite IH]; reflexivity. Qed.

Lemma join_cons (t : string) (toks : list string) :
  Go.join (t :: toks) = t ++ Go.join toks.
Proof.
  unfold Go.join. destruct toks as [| u toks]; simpl.
  - now rewrite append_nil_r.
  - reflexivity.
Qed.

Lemma join_app (xs ys : list string) :
  Go.join (xs ++ ys)%list = Go.join xs ++ Go.join ys.
Proof.
  induction xs as [| x xs IH].
  - reflexivity.
  - rewrite <- app_comm_cons, !join_cons, IH, append_assoc. reflexivity.
Qed.
End StringFacts.

(** ** The dispatching constructor *)

Section Dispatch.
Variable name : string.

(** C2: for each of the seven supported shapes, [ArgumentAny] returns a nil
    error and an Argument that renders as the one built by the explicit
    constructor of that shape from the same name and value. *)
Theorem ArgumentAny_supported :
  (forall v, agrees (ArgumentAny name (bool_any v)) (ArgumentBool name v)) /\
  (forall v, agrees (ArgumentAny name (bools_any v)) (ArgumentBoolSlice name v)) /\
  (forall v, agrees (ArgumentAny name (int_any v)) (ArgumentInt name v)) /\
  (forall v, agrees (ArgumentAny name (ints_any v)) (ArgumentIntSlice name v)) /\
  (forall v, agrees (ArgumentAny name (string_any v)) (ArgumentString name v)) /\
  (forall v, agrees (ArgumentAny name (strings_any v)) (ArgumentStringSlice name v)) /\
  (forall v, agrees (ArgumentAny name (time_any v)) (ArgumentTime name v)).
Proof.
  repeat split.
Qed.

(** C3: for every shape outside the supported set, [ArgumentAny] returns the
    error [ArgumentTypeNotSupportedErr] holding the value it was given,
    together with the zero Argument, which has no name and no value. *)
Theorem ArgumentAny_unsupported (value : any) :
  supported value = false ->
  ArgumentAny name value = (zeroArgument, Some (ArgumentTypeNotSupportedErr value))
  /\ Name (fst (ArgumentAny name value)) = EmptyString
  /\ Value (fst (ArgumentAny name value)) = None.
Proof.
  intros Hshape.
  destruct value; simpl in Hshape; try discriminate Hshape; simpl; auto.
Qed.
End Dispatch.

(** A defined type over [int] is not [int]: the switch does not look through it. *)
Lemma ArgumentAny_unsupported_witness :
  supported (named_any "Celsius" (int_any 21)) = false
  /\ ArgumentAny "t" (named_any "Celsius" (int_any 21))
     = (zeroArgument,
        Some (ArgumentTypeNotSupportedErr (named_any "Celsius" (int_any 21)))).
Proof.
  split; [reflexivity |].
  apply (ArgumentAny_unsupported "t" (named_any "Celsius" (int_any 21))).
  reflexivity.
Defined.

(** Every supported shape does yield text. *)
Lemma ArgumentAny_supported_renders (name : string) (value : any) :
  supported value = true ->
  exists t, Argument_text (fst (ArgumentAny name value)) = Some t.
Proof.
  intros Hshape.
  destruct value; simpl in Hshape; try discriminate Hshape;
    unfold Argument_text, text_of; simpl.
  all: try (eexists; reflexivity).
  all: unfold bracketed;
    match goal with
    | |- context [range_from ?b 0 ?l] =>
        assert (Hr : forall i, exists ts, range_from b i l = Some ts)
          by (induction l as [| x l IH]; intros i; simpl;
              [eexists; reflexivity
              | destruct (IH (S i)) as [ts ->]; eexists; reflexivity]);
        destruct (Hr 0%nat) as [ts ->]
    end; eexists; reflexivity.
Qed.

(** ** Scalar values *)

(** C7, as the code has it: the token of a quoted string is a quote, two
    backslashes, a quote, the content unchanged, two backslashes and two
    quotes; the argument renders as its name, a colon and that token. *)
Theorem argQuotedString_double_escaped (s : string) :
  argumentValue_stringChan (argQuotedString s)
  = Some [String Go.dquote (String Go.backslash (String Go.backslash
            (String Go.dquote
               (s ++ String Go.backslash (String Go.backslash
                       (String Go.dquote (String Go.dquote EmptyString))))%string)))]
  /\ forall name,
      Argument_text (ArgumentQuotedString name s)
      = Some (name ++ ":" ++ quotedString_open ++ s ++ quotedString_close)%string.
Proof.
  split; [reflexivity |].
  intros name. unfold Argument_text, text_of. simpl.
  unfold Go.join, fmt_s. simpl. reflexivity.
Qed.

(** C7, as stated, fails: the text of [ArgumentQuotedString("id", "s")] is not
    the content between single-escaped quotes. *)
Lemma argQuotedString_not_single_escaped :
  value_text (argQuotedString "s") <> Some (single_escaped "s")
  /\ String.length (single_escaped "s") = 7%nat
  /\ option_map String.length (value_text (argQuotedString "s")) = Some 9%nat.
Proof.
  repeat split; [discriminate].
Qed.

(** ** Lists of values *)

Section Separators.
Context {A : Type} (body : A -> option (list string)).

Lemma joined_cons (sep : string) (ts : list string) (rest : list (list string)) :
  joined sep (ts :: rest) = ts ++ led sep rest.
Proof.
  revert ts. induction rest as [| us rest IH]; intros ts.
  - simpl. now rewrite app_nil_r.
  - change (joined sep (ts :: us :: rest)) with (ts ++ [sep] ++ joined sep (us :: rest)).
    rewrite IH. reflexivity.
Qed.

(** Past the first index the loop puts a comma before every element. *)
Lemma range_from_later (i : nat) (s : list A) :
  range_from body (S i) s = tss <- sequence (map body s) ;; Some (led "," tss).
Proof.
  revert i. induction s as [| v rest IH]; intros i; simpl.
  - reflexivity.
  - destruct (body v) as [toks |]; simpl; [| reflexivity].
    rewrite IH. destruct (sequence (map body rest)); reflexivity.
Qed.

(** From index 0 the loop puts a comma between the elements only. *)
Lemma range_from_joined (s : list A) :
  range_from body 0 s = tss <- sequence (map body s) ;; Some (joined "," tss).
Proof.
  destruct s as [| v rest]; [reflexivity |].
  cbn [range_from map sequence].
  destruct (body v) as [toks |]; cbn [bind]; [| reflexivity].
  rewrite range_from_later.
  destruct (sequence (map body rest)) as [tss |]; cbn [bind]; [| reflexivity].
  rewrite joined_cons. reflexivity.
Qed.

Lemma bracketed_joined (open close : string) (s : list A) :
  bracketed open close (range_from body 0 s)
  = comma_joined open close (map body s).
Proof.
  unfold bracketed, comma_joined. rewrite range_from_joined.
  destruct (sequence (map body s)); reflexivity.
Qed.
End Separators.

Lemma join_joined (tss : list (list string)) :
  Go.join (joined "," tss) = String.concat "," (map Go.join tss).
Proof.
  induction tss as [| ts rest IH]; [reflexivity |].
  destruct rest as [| us rest]; [reflexivity |].
  change (joined "," (ts :: us :: rest)) with (ts ++ [","] ++ joined "," (us :: rest)).
  rewrite !join_app, IH. reflexivity.
Qed.

Lemma sequence_text (streams : list (option (list string))) :
  sequence (map text_of streams) = option_map (map Go.join) (sequence streams).
Proof.
  induction streams as [| [ts |] rest IH]; simpl; try reflexivity.
  rewrite IH. destruct (sequence rest); reflexivity.
Qed.

(** The text of comma-joined streams is the texts joined by a comma. *)
Lemma comma_joined_text (open close : string) (streams : list (option (list string))) :
  text_of (comma_joined open close streams)
  = texts <- sequence (map text_of streams) ;;
    Some (open ++ String.concat "," texts ++ close)%string.
Proof.
  unfold comma_joined. rewrite sequence_text.
  destruct (sequence streams) as [tss |]; simpl; [| reflexivity].
  f_equal. change (open :: joined "," tss ++ [close]) with ([open] ++ joined "," tss ++ [close]).
  rewrite !join_app, join_joined. unfold Go.join at 1 3. simpl. reflexivity.
Qed.

(** C4: each list variant sends its opening bracket, the token streams of its
    elements with one comma strictly between consecutive elements (none before
    the first, none after the last), and its closing bracket; so its text is
    the element texts joined by commas between the brackets, an empty list is
    [[]] (an empty object [{}]) and [ArgumentIntSlice("xs")] is [xs:[]]. *)
Theorem list_variants_comma_between :
  (forall s, argumentValue_stringChan (argBoolSlice s)
             = comma_joined "[" "]" (map (fun b => Some [Go.fmt_t b]) s))
  /\ (forall s, argumentValue_stringChan (argIntSlice s)
                = comma_joined "[" "]" (map (fun n => Some [Go.fmt_d n]) s))
  /\ (forall s, argumentValue_stringChan (argStringSlice s)
                = comma_joined "[" "]" (map (fun x => Some [quoted x]) s))
  /\ (forall s, argumentValue_stringChan (argEnumSlice s)
                = comma_joined "[" "]" (map (fun x => Some [x]) s))
  /\ (forall s, argumentValue_stringChan (argumentCustom s)
                = comma_joined "{" "}" (map Argument_stringChan s))
  /\ (forall s, argumentValue_stringChan (argArgSlice s)
                = comma_joined "[" "]"
                    (map (fun v => argumentValue_stringChan (argumentCustom v)) s))
  /\ (forall open close streams,
         text_of (comma_joined open close streams)
         = texts <- sequence (map text_of streams) ;;
           Some (open ++ String.concat "," texts ++ close)%string)
  /\ (value_text (argBoolSlice []) = Some "[]"
      /\ value_text (argIntSlice []) = Some "[]"
      /\ value_text (argStringSlice []) = Some "[]"
      /\ value_text (argEnumSlice []) = Some "[]"
      /\ value_text (argumentCustom []) = Some "{}"
      /\ value_text (argArgSlice []) = Some "[]")
  /\ Argument_text (ArgumentIntSlice "xs" []) = Some "xs:[]".
Proof.
  repeat apply conj; try reflexivity.
  1-6: intros s; cbn [argumentValue_stringChan]; apply bracketed_joined.
  apply comma_joined_text.
Qed.

Example intSlice_three :
  Argument_text (ArgumentIntSlice "xs" [1; -2; 30]%Z) = Some "xs:[1,-2,30]".
Proof. reflexivity. Qed.

Example customType_nested :
  Argument_text
    (ArgumentCustomType "obj" [ArgumentInt "a" 1; ArgumentBool "b" true])
  = Some "obj:{a:1,b:true}".
Proof. reflexivity. Qed.

Example argSlice_two :
  Argument_text
    (ArgumentSlice "l" [[ArgumentInt "a" 1]; []; [ArgumentEnum "e" "X"; ArgumentEnumSlice "f" ["Y"; "Z"]]])
  = Some "l:[{a:1},{},{e:X,f:[Y,Z]}]".
Proof. reflexivity. Qed.

(** ** The token stream of a query *)

(** The loop over the top-level fields sends every field's stream and one
    comma after it. *)
Lemma fields_tokens_terminated (fs : list (option Field)) :
  fields_tokens fs
  = tss <- sequence (map field_stream fs) ;; Some (terminated "," tss).
Proof.
  induction fs as [| [f |] rest IH]; simpl; try reflexivity.
  destruct (Field_stringChan f) as [strs |]; simpl; [| reflexivity].
  rewrite IH. destruct (sequence (map field_stream rest)) as [tss |]; simpl;
    [| reflexivity].
  now rewrite <- app_assoc.
Qed.

(** C1: the query [query Foo] with the single field [bar(n:1)] sends the
    tokens of [query Foo{bar(n:1),}], one comma after the lone field and
    before the closing brace; and every query sends the lowercase keyword, a
    space and the name when there is one, the opening brace, each top-level
    field's stream followed by one comma, and the closing brace. *)
Theorem query_foo_rendered :
  Query_stringChan q_foo
  = Some ["query"; " "; "Foo"; "{"; "bar"; "("; "n"; ":"; "1"; ")"; ","; "}"]
  /\ text_of (Query_stringChan q_foo) = Some "query Foo{bar(n:1),}"
  /\ StringChan q_foo = (Producer (Query_stringChan q_foo), None)
  /\ forall q : Query,
      Query_stringChan q
      = tss <- sequence (map field_stream (Fields q)) ;;
        Some ([Go.ToLower (QType q)]
                ++ (if is_empty (QName q) then [] else [" "; QName q])
                ++ ["{"] ++ terminated "," tss ++ ["}"]).
Proof.
  repeat apply conj; try reflexivity.
  intros q. unfold Query_stringChan. rewrite fields_tokens_terminated.
  destruct (sequence (map field_stream (Fields q))); simpl; [| reflexivity].
  destruct (is_empty (QName q)); reflexivity.
Qed.

(** ** The name grammar *)

Module RegexpFacts.
Import Regexp.

Lemma match_Void (s : string) : MatchString Void s = false.
Proof. induction s as [| c s IH]; simpl; auto. Qed.

Lemma match_Alt (r1 r2 : re) (s : string) :
  MatchString (Alt r1 r2) s = MatchString r1 s || MatchString r2 s.
Proof.
  revert r1 r2. induction s as [| c s IH]; intros r1 r2; simpl; auto.
Qed.

Lemma match_Cat_Void (r : re) (s : string) : MatchString (Cat Void r) s = false.
Proof. induction s as [| c s IH]; simpl; auto. Qed.

Lemma match_Cat_Eps (r : re) (s : string) :
  MatchString (Cat Eps r) s = MatchString r s.
Proof.
  destruct s as [| c s]; simpl; [reflexivity |].
  now rewrite match_Alt, match_Cat_Void.
Qed.

(** A starred class matches exactly the strings of bytes of the class. *)
Lemma match_Star_Class (ranges : list (ascii * ascii)) (s : string) :
  MatchString (Star (Class ranges)) s = forallb_string (in_class ranges) s.
Proof.
  induction s as [| c s IH]; simpl; [reflexivity |].
  destruct (in_class ranges c); simpl.
  - now rewrite match_Cat_Eps.
  - apply match_Cat_Void.
Qed.

Lemma match_Class_Star (h t : list (ascii * ascii)) (s : string) :
  MatchString (Cat (Class h) (Star (Class t))) s
  = match s with
    | EmptyString => false
    | String c rest => in_class h c && forallb_string (in_class t) rest
    end.
Proof.
  destruct s as [| c s]; simpl; [reflexivity |].
  destruct (in_class h c); simpl.
  - now rewrite match_Cat_Eps, match_Star_Class.
  - apply match_Cat_Void.
Qed.
End RegexpFacts.

Lemma name_head_start (c : ascii) : Regexp.in_class name_head c = true <-> name_start c.
Proof.
  unfold Regexp.in_class, Regexp.in_range, name_head, name_start.
  cbn [existsb fst snd]. change (nat_of_ascii "_") with 95.
  change (nat_of_ascii "A") with 65. change (nat_of_ascii "Z") with 90.
  change (nat_of_ascii "a") with 97. change (nat_of_ascii "z") with 122.
  rewrite !orb_true_iff, !andb_true_iff, !Nat.leb_le. lia.
Qed.

Lemma name_tail_continue (c : ascii) :
  Regexp.in_class name_tail c = true <-> name_continue c.
Proof.
  unfold Regexp.in_class, Regexp.in_range, name_tail, name_continue, name_start.
  cbn [existsb fst snd]. change (nat_of_ascii "_") with 95.
  change (nat_of_ascii "A") with 65. change (nat_of_ascii "Z") with 90.
  change (nat_of_ascii "a") with 97. change (nat_of_ascii "z") with 122.
  change (nat_of_ascii "0") with 48. change (nat_of_ascii "9") with 57.
  rewrite !orb_true_iff, !andb_true_iff, !Nat.leb_le. lia.
Qed.

Lemma forallb_all_continue (s : string) :
  forallb_string (Regexp.in_class name_tail) s = true <-> all_continue s.
Proof.
  induction s as [| c s IH]; cbn [forallb_string all_continue]; [tauto |].
  now rewrite andb_true_iff, name_tail_continue, IH.
Qed.

(** [validName.MatchString] decides the name grammar. *)
Lemma validName_grammatical (s : string) :
  Regexp.MatchString validName s = true <-> grammatical s.
Proof.
  unfold validName. rewrite RegexpFacts.match_Class_Star.
  destruct s as [| c s]; cbn [grammatical]; [split; [discriminate | tauto] |].
  now rewrite andb_true_iff, name_head_start, forallb_all_continue.
Qed.

Lemma is_empty_iff (s : string) : is_empty s = true <-> s = EmptyString.
Proof. destruct s; simpl; split; congruence. Qed.

Lemma Query_checkName_passes (q : Query) :
  QName q = EmptyString \/ grammatical (QName q) -> Query_checkName q = None.
Proof.
  unfold Query_checkName. intros [Hempty | Hg].
  - rewrite Hempty. reflexivity.
  - apply validName_grammatical in Hg. rewrite Hg.
    cbn [negb]. now rewrite andb_false_r.
Qed.

(** C5: [checkName] returns nil when the operation name is empty or follows
    the name grammar, and otherwise the error [InvalidNameErr] with the kind
    [operationName] and the name itself. *)
Theorem Query_checkName_grammar (q : Query) :
  (QName q = EmptyString \/ grammatical (QName q) -> Query_checkName q = None)
  /\ (QName q <> EmptyString /\ ~ grammatical (QName q) ->
      Query_checkName q = Some (WithStack (InvalidNameErr operationName (QName q)))
      /\ Cause (WithStack (InvalidNameErr operationName (QName q)))
         = InvalidNameErr operationName (QName q)).
Proof.
  split; [apply Query_checkName_passes |].
  unfold Query_checkName.
  - intros [Hne Hg]. split; [| reflexivity].
    destruct (is_empty (QName q)) eqn:He.
    + apply is_empty_iff in He. contradiction.
    + destruct (Regexp.MatchString validName (QName q)) eqn:Hm; [| reflexivity].
      apply validName_grammatical in Hm. contradiction.
Qed.

Lemma Query_checkName_grammar_witness :
  Query_checkName (mkQuery TypeQuery "Foo_1" []) = None
  /\ Query_checkName (mkQuery TypeQuery "1Foo" [])
     = Some (WithStack (InvalidNameErr operationName "1Foo")).
Proof.
  split.
  - apply (Query_checkName_grammar (mkQuery TypeQuery "Foo_1" [])).
    right. vm_compute. lia.
  - apply (Query_checkName_grammar (mkQuery TypeQuery "1Foo" [])).
    split; [discriminate |].
    vm_compute. lia.
Defined.

Example checkName_rejects :
  map (fun n => Query_checkName (mkQuery TypeQuery n []))
      ["1abc"; "a b"; "a-b"; "_"; "a1_B"; EmptyString]
  = [Some (WithStack (InvalidNameErr operationName "1abc"));
     Some (WithStack (InvalidNameErr operationName "a b"));
     Some (WithStack (InvalidNameErr operationName "a-b"));
     None; None; None].
Proof. reflexivity. Qed.

(** ** Validation *)

Lemma isValidOperationType_recognised (t : operationType) :
  isValidOperationType t = true <-> In t recognised.
Proof.
  unfold isValidOperationType. rewrite existsb_exists. split.
  - intros [x [Hin Heq]]. apply String.eqb_eq in Heq. now subst x.
  - intros Hin. exists t. split; [exact Hin | apply String.eqb_refl].
Qed.

(** C6: when the operation type is empty or none of [query], [mutation],
    [subscription], [StringChan] returns an error whose cause is
    [InvalidOperationTypeErr] with that operation type, and a channel from
    which nothing is received. *)
Theorem StringChan_invalid_operation_type (q : Query) :
  QType q = EmptyString \/ ~ In (QType q) recognised ->
  exists err,
    StringChan q = (ClosedChan, Some err)
    /\ Cause err = InvalidOperationTypeErr (QType q)
    /\ range_chan (fst (StringChan q)) = Returns [].
Proof.
  intros Hbad.
  assert (Hinvalid : isValidOperationType (QType q) = false).
  { destruct (isValidOperationType (QType q)) eqn:Hv; [| reflexivity].
    apply isValidOperationType_recognised in Hv.
    destruct Hbad as [Hempty | Hnot]; [| contradiction].
    rewrite Hempty in Hv. simpl in Hv. intuition discriminate. }
  unfold StringChan, Query_check. rewrite Hinvalid. simpl.
  eexists. repeat split.
Qed.

Lemma StringChan_invalid_operation_type_witness :
  exists err,
    StringChan (MakeQuery "Query") = (ClosedChan, Some err)
    /\ Cause err = InvalidOperationTypeErr "Query"
    /\ range_chan (fst (StringChan (MakeQuery "Query"))) = Returns [].
Proof.
  apply (StringChan_invalid_operation_type (MakeQuery "Query")).
  right. simpl. intuition discriminate.
Defined.

(** C10: when [StringChan] returns an error, the channel it returns is the
    closed one, not the nil channel, and ranging over it receives no token
    and ends at once. *)
Theorem StringChan_error_closed (q : Query) (ch : Chan) (err : error) :
  StringChan q = (ch, Some err) ->
  ch = ClosedChan /\ ch <> NilChan /\ range_chan ch = Returns [].
Proof.
  unfold StringChan. intros H.
  destruct (Query_check q) as [e |].
  - injection H as <- _. repeat split. discriminate.
  - destruct (StringChan_fields (Fields q)) as [e |].
    + injection H as <- _. repeat split. discriminate.
    + discriminate H.
Qed.

Lemma StringChan_error_closed_witness :
  StringChan (SetFields (MakeQuery TypeQuery) [None])
  = (ClosedChan, Some (WithStack NilFieldErr))
  /\ ClosedChan <> NilChan
  /\ range_chan ClosedChan = Returns [].
Proof.
  split; [reflexivity |].
  apply (StringChan_error_closed (SetFields (MakeQuery TypeQuery) [None])
           ClosedChan (WithStack NilFieldErr)).
  reflexivity.
Defined.

(** ** Nil field slots *)

Lemma Field_tree_ind (P : Field -> Prop) :
  (forall name alias args subs,
      (forall sub, In (Some sub) subs -> P sub) ->
      P (mkField name alias args subs)) ->
  forall f, P f.
Proof.
  intros step. fix IH 1. intros [name alias args subs]. apply step.
  induction subs as [| [g |] rest IHrest]; intros sub Hin.
  - destruct Hin.
  - destruct Hin as [Heq | Hin].
    + injection Heq as <-. apply IH.
    + apply IHrest, Hin.
  - destruct Hin as [Heq | Hin]; [discriminate Heq | apply IHrest, Hin].
Qed.

Lemma Field_check_unfold (name alias : string) (args : list Argument)
      (subs : list (option Field)) :
  Field_check (mkField name alias args subs)
  = if negb (Regexp.MatchString validName (if is_empty alias then name else alias))
    then Some (InvalidNameErr (if is_empty alias then fieldName else aliasName)
                              (if is_empty alias then name else alias))
    else check_slots subs.
Proof. reflexivity. Qed.

(** The loop of [StringChan] is the loop of [Field.check] with a stack added. *)
Lemma StringChan_fields_check_slots (fs : list (option Field)) :
  StringChan_fields fs = option_map WithStack (check_slots fs).
Proof.
  induction fs as [| [f |] rest IH]; simpl; try reflexivity.
  destruct (Field_check f); [reflexivity | exact IH].
Qed.

Lemma check_slots_nil_fails (subs : list (option Field)) :
  (forall sub, In (Some sub) subs ->
               Field_has_nil sub = true -> Field_check sub <> None) ->
  existsb slot_has_nil subs = true -> check_slots subs <> None.
Proof.
  induction subs as [| [g |] rest IH]; simpl; intros Hsub Hnil.
  - discriminate Hnil.
  - destruct (Field_check g) eqn:Hg; [discriminate |].
    apply orb_true_iff in Hnil. destruct Hnil as [Hnil | Hnil].
    + exfalso. apply (Hsub g); auto.
    + apply IH; auto.
  - discriminate.
Qed.

(** A field with a nil slot anywhere below it does not pass [check]. *)
Lemma Field_check_nil_fails (f : Field) :
  Field_has_nil f = true -> Field_check f <> None.
Proof.
  induction f as [name alias args subs IH] using Field_tree_ind.
  intros Hnil. rewrite Field_check_unfold.
  destruct (negb _); [discriminate |].
  apply check_slots_nil_fails; assumption.
Qed.

Lemma check_slots_names_ok (subs : list (option Field)) :
  (forall sub, In (Some sub) subs ->
               Field_names_ok sub = true ->
               Field_check sub = if Field_has_nil sub then Some NilFieldErr else None) ->
  forallb slot_names_ok subs = true ->
  check_slots subs = if existsb slot_has_nil subs then Some NilFieldErr else None.
Proof.
  induction subs as [| [g |] rest IH]; simpl; intros Hsub Hok.
  - reflexivity.
  - apply andb_true_iff in Hok. destruct Hok as [Hg Hrest].
    rewrite (Hsub g) by auto.
    destruct (Field_has_nil g); [reflexivity |]. simpl. apply IH; auto.
  - reflexivity.
Qed.

(** When all names are valid, the only error [check] can find is a nil slot. *)
Lemma Field_check_names_ok (f : Field) :
  Field_names_ok f = true ->
  Field_check f = if Field_has_nil f then Some NilFieldErr else None.
Proof.
  induction f as [name alias args subs IH] using Field_tree_ind.
  intros Hok. rewrite Field_check_unfold.
  simpl in Hok. apply andb_true_iff in Hok. destruct Hok as [Hname Hsubs].
  rewrite Hname. cbn [negb].
  apply check_slots_names_ok; assumption.
Qed.

Lemma Query_check_passes (q : Query) :
  isValidOperationType (QType q) = true ->
  QName q = EmptyString \/ grammatical (QName q) ->
  Query_check q = None.
Proof.
  intros Htype Hname. unfold Query_check. rewrite Htype. cbn [negb].
  now rewrite Query_checkName_passes.
Qed.

(** C9, as the code has it: a query with a nil slot among its fields or below
    them never gets a token stream, [StringChan] returns an error and the
    closed channel; the cause of the error is [NilFieldErr] whenever the
    operation type is recognised and the operation name and the names of all
    fields pass their checks. *)
Theorem StringChan_nil_slot (q : Query) :
  Query_has_nil q = true ->
  (exists err,
      StringChan q = (ClosedChan, Some err)
      /\ range_chan (fst (StringChan q)) = Returns [])
  /\ (isValidOperationType (QType q) = true ->
      QName q = EmptyString \/ grammatical (QName q) ->
      forallb slot_names_ok (Fields q) = true ->
      exists err,
        StringChan q = (ClosedChan, Some err) /\ Cause err = NilFieldErr).
Proof.
  unfold Query_has_nil. intros Hnil. split.
  - unfold StringChan. destruct (Query_check q) as [e |].
    + eexists. split; reflexivity.
    + rewrite StringChan_fields_check_slots.
      destruct (check_slots (Fields q)) as [e |] eqn:Hc.
      * eexists. split; reflexivity.
      * exfalso. revert Hc. apply check_slots_nil_fails; [| exact Hnil].
        intros sub _. apply Field_check_nil_fails.
  - intros Htype Hname Hnames. unfold StringChan.
    rewrite Query_check_passes by assumption.
    rewrite StringChan_fields_check_slots, check_slots_names_ok, Hnil;
      [| intros sub _; apply Field_check_names_ok | exact Hnames].
    eexists. split; reflexivity.
Qed.

Lemma StringChan_nil_slot_witness :
  exists err,
    StringChan
      (mkQuery TypeQuery "Foo"
         [Some (mkField "a" EmptyString [] []);
          Some (mkField "b" "c" [] [Some (mkField "d" EmptyString [] [None])])])
    = (ClosedChan, Some err)
    /\ Cause err = NilFieldErr.
Proof.
  apply (StringChan_nil_slot
           (mkQuery TypeQuery "Foo"
              [Some (mkField "a" EmptyString [] []);
               Some (mkField "b" "c" [] [Some (mkField "d" EmptyString [] [None])])])).
  - reflexivity.
  - reflexivity.
  - right. vm_compute. lia.
  - reflexivity.
Defined.

(** C9, as stated, fails: with an operation name that is not a name, the nil
    slot is never looked at and the error is [InvalidNameErr]. *)
Lemma StringChan_nil_slot_other_error :
  Query_has_nil q_bad_name_nil = true
  /\ StringChan q_bad_name_nil
     = (ClosedChan,
        Some (WithStack (WithStack (WithStack
                (InvalidNameErr operationName "my query")))))
  /\ ~ (forall q, Query_has_nil q = true ->
                  exists err, snd (StringChan q) = Some err /\ Cause err = NilFieldErr).
Proof.
  repeat split.
  intros Hall. destruct (Hall q_bad_name_nil eq_refl) as [err [Herr Hcause]].
  simpl in Herr. injection Herr as <-. discriminate Hcause.
Qed.

(** ** Token production after validation *)

Section RangeTotal.
Context {A : Type} (body : A -> option (list string)).

Lemma range_from_total (s : list A) :
  (forall x, In x s -> exists ts, body x = Some ts) ->
  forall i, exists ts, range_from body i s = Some ts.
Proof.
  induction s as [| v rest IH]; intros Hbody i; simpl.
  - eexists; reflexivity.
  - destruct (Hbody v) as [ts ->]; [now left |].
    destruct (IH (fun x Hx => Hbody x (or_intror Hx)) (S i)) as [more ->].
    eexists; reflexivity.
Qed.
End RangeTotal.

Lemma bracketed_total (open close : string) (inner : option (list string)) :
  (exists ts, inner = Some ts) -> exists ts, bracketed open close inner = Some ts.
Proof. intros [ts ->]. eexists; reflexivity. Qed.

Lemma forallb_In {A : Type} (p : A -> bool) (l : list A) (x : A) :
  forallb p l = true -> In x l -> p x = true.
Proof. intros H Hin. rewrite forallb_forall in H. auto. Qed.

(** A value whose arguments all hold a value has a token stream. *)
Lemma argumentValue_renders (v : argumentValue) :
  argumentValue_valued v = true ->
  exists ts, argumentValue_stringChan v = Some ts
with Argument_renders (a : Argument) :
  Argument_valued a = true ->
  exists ts, Argument_stringChan a = Some ts.
Proof.
  - destruct v as [b | n | x | x | x | x | t | s | s | s | s | s | s];
      intros Hv; cbn [argumentValue_stringChan];
      try (eexists; reflexivity);
      try (apply bracketed_total, range_from_total; intros; eexists; reflexivity).
    + apply bracketed_total. cbn [argumentValue_valued] in Hv.
      assert (Hall : forall i, exists ts,
                 range_from Argument_stringChan i s = Some ts);
        [| exact (Hall 0%nat)].
      induction s as [| a rest IHs]; intros i; cbn [range_from].
      * eexists; reflexivity.
      * cbn [forallb] in Hv. apply andb_true_iff in Hv. destruct Hv as [Ha Hrest].
        destruct (Argument_renders a Ha) as [ts ->].
        destruct (IHs Hrest (S i)) as [more ->]. eexists; reflexivity.
    + apply bracketed_total. cbn [argumentValue_valued] in Hv.
      set (inner := fun v : list Argument =>
                      bracketed "{" "}" (range_from Argument_stringChan 0 v)).
      assert (Hall : forall i, exists ts, range_from inner i s = Some ts);
        [| exact (Hall 0%nat)].
      induction s as [| l rest IHs]; intros i; cbn [range_from].
      * eexists; reflexivity.
      * cbn [forallb] in Hv. apply andb_true_iff in Hv. destruct Hv as [Hl Hrest].
        assert (Hin : exists ts, inner l = Some ts).
        { apply bracketed_total.
          assert (Hl' : forall j, exists ts,
                     range_from Argument_stringChan j l = Some ts);
            [| exact (Hl' 0%nat)].
          clear IHs Hrest.
          induction l as [| a l' IHl]; intros j; cbn [range_from].
          - eexists; reflexivity.
          - cbn [forallb] in Hl. apply andb_true_iff in Hl. destruct Hl as [Ha Hl'].
            destruct (Argument_renders a Ha) as [ts ->].
            destruct (IHl Hl' (S j)) as [more ->]. eexists; reflexivity. }
        destruct Hin as [ts ->].
        destruct (IHs Hrest (S i)) as [more ->]. eexists; reflexivity.
  - destruct a as [name [v |]]; intros Ha; cbn [Argument_stringChan].
    + destruct (argumentValue_renders v Ha) as [ts ->]. eexists; reflexivity.
    + discriminate Ha.
Qed.

Lemma Field_stringChan_unfold (name alias : string) (args : list Argument)
      (subs : list (option Field)) :
  Field_stringChan (mkField name alias args subs)
  = argToks <-
      match args with
      | [] => Some []
      | _ => bracketed "(" ")" (range_from Argument_stringChan 0 args)
      end ;;
    subToks <-
      match subs with
      | [] => Some []
      | _ => bracketed "{" "}" (range_from field_stream 0 subs)
      end ;;
    Some ((if is_empty alias then [] else [alias; ":"])
            ++ [name] ++ argToks ++ subToks).
Proof. reflexivity. Qed.

(** A field without nil slots whose arguments all hold a value has a token
    stream. *)
Lemma Field_renders (f : Field) :
  Field_has_nil f = false -> Field_valued f = true ->
  exists ts, Field_stringChan f = Some ts.
Proof.
  induction f as [name alias args subs IH] using Field_tree_ind.
  intros Hnil Hval. rewrite Field_stringChan_unfold.
  simpl in Hnil, Hval. apply andb_true_iff in Hval. destruct Hval as [Hargs Hsubs].
  assert (Ha : exists ts,
             match args with
             | [] => Some []
             | _ => bracketed "(" ")" (range_from Argument_stringChan 0 args)
             end = Some ts).
  { destruct args as [| a args']; [eexists; reflexivity |].
    apply bracketed_total, range_from_total.
    intros x Hx. apply Argument_renders. exact (forallb_In _ _ x Hargs Hx). }
  assert (Hs : exists ts,
             match subs with
             | [] => Some []
             | _ => bracketed "{" "}" (range_from field_stream 0 subs)
             end = Some ts).
  { destruct subs as [| g subs']; [eexists; reflexivity |].
    apply bracketed_total, range_from_total.
    intros [sub |] Hx.
    - apply IH; [exact Hx | |].
      + destruct (Field_has_nil sub) eqn:Hn; [| reflexivity].
        rewrite <- Hnil. symmetry. apply existsb_exists.
        exists (Some sub). split; [exact Hx | exact Hn].
      + exact (forallb_In _ _ (Some sub) Hsubs Hx).
    - exfalso. rewrite <- not_true_iff_false in Hnil. apply Hnil.
      apply existsb_exists. exists None. split; [exact Hx | reflexivity]. }
  destruct Ha as [ta ->]. destruct Hs as [ts ->]. eexists; reflexivity.
Qed.

Lemma fields_tokens_total (fs : list (option Field)) :
  existsb slot_has_nil fs = false -> forallb slot_valued fs = true ->
  exists ts, fields_tokens fs = Some ts.
Proof.
  induction fs as [| [f |] rest IH]; simpl; intros Hnil Hval.
  - eexists; reflexivity.
  - apply orb_false_iff in Hnil. destruct Hnil as [Hf Hrest].
    apply andb_true_iff in Hval. destruct Hval as [Hvf Hvrest].
    destruct (Field_renders f Hf Hvf) as [strs ->].
    destruct (IH Hrest Hvrest) as [more ->]. eexists; reflexivity.
  - discriminate Hnil.
Qed.

(** What [StringChan] returns when it returns no error. *)
Lemma StringChan_validated (q : Query) :
  snd (StringChan q) = None ->
  StringChan q = (Producer (Query_stringChan q), None)
  /\ existsb slot_has_nil (Fields q) = false.
Proof.
  unfold StringChan. destruct (Query_check q) as [e |]; [discriminate |].
  rewrite StringChan_fields_check_slots.
  destruct (check_slots (Fields q)) as [e |] eqn:Hc; [discriminate |].
  intros _. split; [reflexivity |].
  destruct (existsb slot_has_nil (Fields q)) eqn:Hnil; [| reflexivity].
  exfalso. revert Hc. apply check_slots_nil_fails; [| exact Hnil].
  intros sub _. apply Field_check_nil_fails.
Qed.

(** After validation, token production completes as soon as every argument
    holds a value. *)
Lemma Query_stringChan_total (q : Query) :
  snd (StringChan q) = None -> Query_valued q = true ->
  exists toks, Query_stringChan q = Some toks.
Proof.
  intros Hok Hval. destruct (StringChan_validated q Hok) as [_ Hnil].
  unfold Query_stringChan.
  destruct (fields_tokens_total (Fields q) Hnil Hval) as [fs ->].
  eexists; reflexivity.
Qed.

(** ** The JSON body *)

Lemma prefix_empty (s : string) : prefix EmptyString s = true.
Proof. destruct s; reflexivity. Qed.

(** Replacing the one-byte string [dquote] is escaping byte by byte. *)
Lemma Replace_quotes (s : string) :
  Go.Replace s (Go.str Go.dquote) escaped_quote = escape_quotes s.
Proof.
  unfold Go.Replace. induction s as [| c s IH]; [reflexivity |].
  cbn [Go.replace_from escape_quotes Go.str prefix].
  destruct (ascii_dec Go.dquote c) as [Heq | Hne].
  - subst c. rewrite prefix_empty, Ascii.eqb_refl.
    cbn. fold Go.dquote. f_equal. f_equal. exact IH.
  - destruct (Ascii.eqb_spec c Go.dquote) as [Heq | _]; [congruence |].
    f_equal. exact IH.
Qed.

(** An escaped document without backslashes and control characters is the
    inside of one JSON string: it ends at the quote put after it. *)
Lemma string_rest_escaped (d rest : string) :
  forallb_string plain_byte d = true ->
  Json.string_rest (escape_quotes d ++ String Go.dquote rest)%string = Some rest.
Proof.
  induction d as [| c d IH]; intros Hplain.
  - reflexivity.
  - cbn [forallb_string] in Hplain. apply andb_true_iff in Hplain.
    destruct Hplain as [Hc Hd]. unfold plain_byte in Hc.
    apply andb_true_iff in Hc. destruct Hc as [Hbs Hctl].
    apply negb_true_iff in Hbs, Hctl.
    cbn [escape_quotes]. destruct (Ascii.eqb c Go.dquote) eqn:Hq.
    + cbn. exact (IH Hd).
    + cbn [append Json.string_rest]. rewrite Hq, Hbs, Hctl. exact (IH Hd).
Qed.

Lemma value_wrapper (fuel : nat) (d : string) :
  forallb_string plain_byte d = true ->
  Json.value (S (S (S fuel))) (fmt_s json_open json_close (escape_quotes d))
  = Some EmptyString.
Proof.
  intros Hplain. unfold fmt_s, json_open, json_close, quoted, fmt_s, Go.str.
  simpl. rewrite (string_rest_escaped d _ Hplain). reflexivity.
Qed.

Lemma wrapper_valid (d : string) :
  forallb_string plain_byte d = true ->
  Json.valid (fmt_s json_open json_close (escape_quotes d)) = true.
Proof.
  intros Hplain. unfold Json.valid.
  assert (Hlen : exists fuel,
             String.length (fmt_s json_open json_close (escape_quotes d))
             = S (S fuel)).
  { unfold fmt_s. rewrite length_append. cbn. eexists; reflexivity. }
  destruct Hlen as [fuel ->]. rewrite value_wrapper by exact Hplain. reflexivity.
Qed.

(** C8, as the code has it: for a query that passes validation and whose
    arguments all hold a value, [JsonBody] joins all tokens into the document,
    puts a backslash before every double quote of it and returns that text
    between the opening and the closing of the wrapper, with a nil error; the
    body is valid JSON whenever the document has neither a backslash nor a
    control character. *)
Theorem JsonBody_wraps_escaped (q : Query) :
  snd (StringChan q) = None ->
  Query_valued q = true ->
  exists toks,
    StringChan q = (Producer (Some toks), None)
    /\ JsonBody q
       = Returns (fmt_s json_open json_close (escape_quotes (Go.join toks)), None)
    /\ (forallb_string plain_byte (Go.join toks) = true ->
        Json.valid (fmt_s json_open json_close (escape_quotes (Go.join toks)))
        = true).
Proof.
  intros Hok Hval.
  destruct (Query_stringChan_total q Hok Hval) as [toks Htoks].
  destruct (StringChan_validated q Hok) as [Hch _].
  rewrite Htoks in Hch. exists toks. split; [exact Hch |]. split.
  - unfold JsonBody. rewrite Hch. cbn [StringFromChan range_chan].
    now rewrite Replace_quotes.
  - apply wrapper_valid.
Qed.

Lemma JsonBody_wraps_escaped_witness :
  exists toks,
    StringChan q_foo = (Producer (Some toks), None)
    /\ JsonBody q_foo
       = Returns (fmt_s json_open json_close (escape_quotes (Go.join toks)), None)
    /\ (forallb_string plain_byte (Go.join toks) = true ->
        Json.valid (fmt_s json_open json_close (escape_quotes (Go.join toks)))
        = true).
Proof.
  apply (JsonBody_wraps_escaped q_foo); reflexivity.
Defined.

Example JsonBody_quoted_argument :
  JsonBody
    (SetFields (MakeQuery TypeQuery)
       [Some (mkField "f" EmptyString [ArgumentString "x" "a b"] [])])
  = Returns (fmt_s json_open json_close
               ("query{f(x:" ++ escaped_quote ++ "a b" ++ escaped_quote ++ "),}"),
             None).
Proof. reflexivity. Qed.

(** C8, as stated, fails.  The string argument that is one backslash passes
    validation and its document has double quotes, but the backslash joins
    the escape of the closing quote and the body is not JSON; and a query
    holding the zero Argument passes validation, yet its producer panics and
    [JsonBody] returns nothing. *)
Lemma JsonBody_not_always_json :
  (snd (StringChan q_backslash) = None
   /\ text_of (Query_stringChan q_backslash)
      = Some ("query{f(x:" ++ quoted (Go.str Go.backslash) ++ "),}")%string
   /\ JsonBody q_backslash
      = Returns (fmt_s json_open json_close
                   ("query{f(x:" ++ escaped_quote ++ Go.str Go.backslash
                      ++ escaped_quote ++ "),}"), None)
   /\ Json.valid (fmt_s json_open json_close
                    ("query{f(x:" ++ escaped_quote ++ Go.str Go.backslash
                       ++ escaped_quote ++ "),}")) = false)
  /\ (snd (StringChan q_zero_argument) = None
      /\ JsonBody q_zero_argument = Panics).
Proof.
  repeat split.
Qed.

(** * Further properties of the argument file *)

(** A value that holds the zero Argument somewhere has no token stream: the
    goroutine of that Argument calls a method of a nil interface. *)
Lemma argumentValue_panics (v : argumentValue) :
  argumentValue_valued v = false -> argumentValue_stringChan v = None
with Argument_panics (a : Argument) :
  Argument_valued a = false -> Argument_stringChan a = None.
Proof.
  - destruct v as [b | n | x | x | x | x | t | s | s | s | s | s | s];
      intros Hv; cbn [argumentValue_valued] in Hv; try discriminate Hv;
      cbn [argumentValue_stringChan].
    + assert (Hall : forall i, range_from Argument_stringChan i s = None);
        [| now rewrite (Hall 0%nat)].
      induction s as [| a rest IHs]; intros i; [discriminate Hv |].
      cbn [forallb] in Hv. cbn [range_from].
      destruct (Argument_valued a) eqn:Ha.
      * destruct (Argument_stringChan a); [| reflexivity]. cbn [bind].
        rewrite (IHs Hv (S i)). reflexivity.
      * rewrite (Argument_panics a Ha). reflexivity.
    + set (inner := fun l : list Argument =>
                      bracketed "{" "}" (range_from Argument_stringChan 0 l)).
      assert (Hall : forall i, range_from inner i s = None);
        [| now rewrite (Hall 0%nat)].
      induction s as [| l rest IHs]; intros i; [discriminate Hv |].
      cbn [forallb] in Hv. cbn [range_from].
      destruct (forallb Argument_valued l) eqn:Hl.
      * destruct (inner l); [| reflexivity]. cbn [bind].
        rewrite (IHs Hv (S i)). reflexivity.
      * assert (Hin : inner l = None); [| now rewrite Hin].
        unfold inner.
        assert (Hl' : forall j, range_from Argument_stringChan j l = None);
          [| now rewrite (Hl' 0%nat)].
        clear IHs Hv.
        induction l as [| a l' IHl]; intros j; [discriminate Hl |].
        cbn [forallb] in Hl. cbn [range_from].
        destruct (Argument_valued a) eqn:Ha.
        -- destruct (Argument_stringChan a); [| reflexivity]. cbn [bind].
           rewrite (IHl Hl (S j)). reflexivity.
        -- rewrite (Argument_panics a Ha). reflexivity.
  - destruct a as [name [v |]]; intros Ha; cbn [Argument_stringChan].
    + cbn [Argument_valued] in Ha. rewrite (argumentValue_panics v Ha). reflexivity.
    + reflexivity.
Qed.

Lemma Argument_stream_shape (a : Argument) :
  Argument_valued a = true ->
  exists toks, Argument_stringChan a = Some ([Name a; ":"] ++ toks).
Proof.
  intros Hv. destruct (Argument_renders a Hv) as [ts Hts].
  destruct a as [name [v |]]; cbn [Argument_stringChan Name] in *;
    [| discriminate Hts].
  destruct (argumentValue_stringChan v) as [toks |]; [| discriminate Hts].
  exists toks. reflexivity.
Qed.

(** X1: an Argument has a token stream exactly when it and every Argument
    nested in its value hold a value; the stream then starts with the name
    and a colon.  With a nil [Value] anywhere its goroutine panics. *)
Theorem Argument_stringChan_defined (a : Argument) :
  (Argument_valued a = true <->
   exists toks, Argument_stringChan a = Some ([Name a; ":"] ++ toks))
  /\ (Argument_valued a = false <-> Argument_stringChan a = None).
Proof.
  destruct (Argument_valued a) eqn:Hv.
  - destruct (Argument_stream_shape a Hv) as [toks Hts].
    split; split; try discriminate; try congruence.
    intros _. exists toks. exact Hts.
  - pose proof (Argument_panics a Hv) as Hnone.
    split; split; try discriminate; try reflexivity; try congruence.
    intros [toks Hts]. congruence.
Qed.

Lemma Argument_stringChan_defined_witness :
  exists toks,
    Argument_stringChan
      (ArgumentCustomType "p" [ArgumentSlice "q" [[ArgumentInt "n" 7]; []]])
    = Some (["p"; ":"] ++ toks).
Proof.
  apply (Argument_stringChan_defined
           (ArgumentCustomType "p" [ArgumentSlice "q" [[ArgumentInt "n" 7]; []]])).
  reflexivity.
Defined.

(** X2: [ArgumentAny] returns a nil error exactly for the seven supported
    shapes; the Argument then carries the given name and has a token stream,
    while the Argument returned beside an error has none (rendering it would
    panic). *)
Theorem ArgumentAny_usable_iff_no_error (name : string) (value : any) :
  (snd (ArgumentAny name value) = None <-> supported value = true)
  /\ (snd (ArgumentAny name value) = None ->
      Name (fst (ArgumentAny name value)) = name
      /\ exists toks,
          Argument_stringChan (fst (ArgumentAny name value))
          = Some ([name; ":"] ++ toks))
  /\ (snd (ArgumentAny name value) <> None ->
      Argument_stringChan (fst (ArgumentAny name value)) = None).
Proof.
  destruct value; cbn [ArgumentAny supported fst snd].
  all: repeat apply conj; try discriminate; try reflexivity; try congruence.
  all: try (intros _; reflexivity).
  all: intros _; split; [reflexivity |].
  all: match goal with
       | |- exists toks, Argument_stringChan ?a = _ =>
           destruct (Argument_stream_shape a eq_refl) as [toks Htoks];
           exists toks; exact Htoks
       end.
Qed.

Lemma ArgumentAny_usable_iff_no_error_witness :
  Argument_stringChan (fst (ArgumentAny "ratio" (float64_any 0))) = None.
Proof.
  apply (ArgumentAny_usable_iff_no_error "ratio" (float64_any 0)).
  simpl. discriminate.
Defined.

(** ** Content is never escaped *)

Section ConcatFacts.
Local Open Scope string_scope.

Lemma concat_cons2 (sep x y : string) (l : list string) :
  String.concat sep (x :: y :: l) = x ++ sep ++ String.concat sep (y :: l).
Proof. reflexivity. Qed.

(** Two neighbours joined by the separator beforehand give the same text. *)
Lemma concat_merge (sep x y : string) (pre post : list string) :
  String.concat sep (pre ++ (x ++ sep ++ y)%string :: post)%list
  = String.concat sep (pre ++ x :: y :: post)%list.
Proof.
  induction pre as [| p pre IH].
  - cbn [app]. rewrite concat_cons2. destruct post as [| q post].
    + reflexivity.
    + rewrite !concat_cons2, !append_assoc. reflexivity.
  - cbn [app].
    destruct pre as [| p' pre]; cbn [app] in *; rewrite !concat_cons2, IH;
      reflexivity.
Qed.

Lemma quoted_merge (a b : string) :
  quoted (a ++ quote_comma_quote ++ b) = quoted a ++ "," ++ quoted b.
Proof.
  unfold quoted, fmt_s, quote_comma_quote, Go.str.
  rewrite !append_assoc. reflexivity.
Qed.
End ConcatFacts.

(** X3: [argStringSlice] does not escape its elements: one element that
    contains quote, comma, quote renders to the same text as the two elements
    on either side of it, wherever it stands in the list. *)
Theorem argStringSlice_element_splits (pre post : list string) (a b : string) :
  value_text (argStringSlice (pre ++ (a ++ quote_comma_quote ++ b)%string :: post))
  = value_text (argStringSlice (pre ++ a :: b :: post))
  /\ exists t, value_text (argStringSlice (pre ++ a :: b :: post)) = Some t.
Proof.
  assert (Htext : forall s, value_text (argStringSlice s)
                            = Some ("[" ++ String.concat "," (map quoted s) ++ "]")%string).
  { intros s. unfold value_text. cbn [argumentValue_stringChan].
    rewrite bracketed_joined, comma_joined_text, map_map.
    cbn [text_of option_map]. 
    assert (Hseq : forall l : list string,
               sequence (map (fun x => Some (Go.join [quoted x])) l)
               = Some (map quoted l)).
    { induction l as [| x l IH]; [reflexivity |].
      cbn [map sequence bind]. rewrite IH. reflexivity. }
    rewrite Hseq. reflexivity. }
  rewrite !Htext. split; [| eexists; reflexivity].
  rewrite !map_app. cbn [map]. rewrite quoted_merge, concat_merge. reflexivity.
Qed.

(** ** Reading scalar tokens back *)

Section AppendCancel.
Local Open Scope string_scope.

Lemma append_inv_head (p s t : string) : p ++ s = p ++ t -> s = t.
Proof.
  induction p as [| c p IH]; simpl; [auto |].
  intros [= H]. auto.
Qed.

Lemma append_inv_tail (u s t : string) : s ++ u = t ++ u -> s = t.
Proof.
  revert t. induction s as [| c s IH]; intros [| d t] H.
  - reflexivity.
  - exfalso. apply (f_equal String.length) in H.
    cbn [append] in H. cbn [String.length] in H. rewrite length_append in H. lia.
  - exfalso. apply (f_equal String.length) in H.
    cbn [append] in H. cbn [String.length] in H. rewrite length_append in H. lia.
  - cbn [append] in H. injection H as -> H. f_equal. auto.
Qed.

Lemma fmt_s_injective (before after : string) : injective (fmt_s before after).
Proof.
  intros s t H. unfold fmt_s in H.
  apply append_inv_head in H. apply append_inv_tail in H. exact H.
Qed.
End AppendCancel.

Lemma single_token_inj (a b : string) : Some [a] = Some [b] -> a = b.
Proof. congruence. Qed.

(** [%d] prints what the decimal reader reads back. *)
Lemma parse_fmt_d (n : Z) : parse_d (Go.fmt_d n) = Some n.
Proof.
  unfold parse_d, Go.fmt_d. rewrite NilZero.isi.
  - cbn [option_map]. now rewrite DecimalZ.of_to.
  - destruct n; simpl; try discriminate.
    intros [= H]. now apply Unsigned.to_uint_nonnil in H.
  - destruct n; simpl; try discriminate.
    intros [= H]. now apply Unsigned.to_uint_nonnil in H.
Qed.

(** X4: within each scalar variant but the time, the one token sent
    determines the content: booleans, integers (the decimal token reads back
    as the integer), strings, quoted strings, block strings and enums with
    different contents have different tokens. *)
Theorem scalar_tokens_injective :
  injective (fun b => argumentValue_stringChan (argBool b))
  /\ injective (fun n => argumentValue_stringChan (argInt n))
  /\ (forall n, option_map (map parse_d) (argumentValue_stringChan (argInt n))
                = Some [Some n])
  /\ injective (fun s => argumentValue_stringChan (argString s))
  /\ injective (fun s => argumentValue_stringChan (argQuotedString s))
  /\ injective (fun s => argumentValue_stringChan (argBlockString s))
  /\ injective (fun s => argumentValue_stringChan (argEnum s)).
Proof.
  repeat apply conj; try intros x y; cbn [argumentValue_stringChan];
    try (intros H; apply single_token_inj in H).
  - destruct x, y; simpl in H; congruence.
  - apply (f_equal parse_d) in H. rewrite !parse_fmt_d in H. congruence.
  - intros n. cbn [option_map map]. now rewrite parse_fmt_d.
  - exact (fmt_s_injective _ _ _ _ H).
  - exact (fmt_s_injective _ _ _ _ H).
  - exact (fmt_s_injective _ _ _ _ H).
  - exact H.
Qed.

(** * Further properties of the query file *)

(** ** The escaping of [JsonBody] *)

Lemma escape_quotes_head (d : string) :
  match escape_quotes d with
  | String c _ => Ascii.eqb c Go.dquote = false
  | EmptyString => True
  end.
Proof.
  destruct d as [| c d]; cbn [escape_quotes]; [exact I |].
  destruct (Ascii.eqb c Go.dquote) eqn:Hc; [reflexivity | exact Hc].
Qed.

Lemma unescape_escape (d : string) : unescape_quotes (escape_quotes d) = d.
Proof.
  induction d as [| c d IH]; [reflexivity |].
  cbn [escape_quotes]. destruct (Ascii.eqb c Go.dquote) eqn:Hc.
  - apply Ascii.eqb_eq in Hc. subst c.
    cbn [unescape_quotes]. rewrite !Ascii.eqb_refl. cbn [andb].
    now rewrite IH.
  - cbn [unescape_quotes]. pose proof (escape_quotes_head d) as Hhead.
    destruct (escape_quotes d) as [| e rest] eqn:He.
    + destruct d as [| c' d']; [reflexivity |].
      cbn [escape_quotes] in He. destruct (Ascii.eqb c' Go.dquote); discriminate He.
    + rewrite Hhead, andb_false_r. now rewrite IH.
Qed.

Lemma escape_quotes_escaped (d : string) (after_backslash : bool) :
  quotes_escaped_from after_backslash (escape_quotes d) = true.
Proof.
  revert after_backslash. induction d as [| c d IH]; intros p; [reflexivity |].
  cbn [escape_quotes]. destruct (Ascii.eqb c Go.dquote) eqn:Hc.
  - cbn [quotes_escaped_from]. rewrite !Ascii.eqb_refl, IH. reflexivity.
  - cbn [quotes_escaped_from]. rewrite Hc, IH. reflexivity.
Qed.

(** X5: the replacement [JsonBody] applies to the document loses nothing and
    leaves no bare quote: taking the backslash off every escaped quote gives
    the document back, so different documents get different bodies, and every
    double quote of the result has a backslash right before it. *)
Theorem JsonBody_escaping_invertible :
  (forall d, unescape_quotes (Go.Replace d (Go.str Go.dquote) escaped_quote) = d)
  /\ injective (fun d => Go.Replace d (Go.str Go.dquote) escaped_quote)
  /\ (forall d, quotes_escaped (Go.Replace d (Go.str Go.dquote) escaped_quote) = true)
  /\ injective (fun d => fmt_s json_open json_close
                           (Go.Replace d (Go.str Go.dquote) escaped_quote)).
Proof.
  assert (Hround : forall d,
             unescape_quotes (Go.Replace d (Go.str Go.dquote) escaped_quote) = d).
  { intros d. rewrite Replace_quotes. apply unescape_escape. }
  assert (Hinj : injective (fun d => Go.Replace d (Go.str Go.dquote) escaped_quote)).
  { intros x y H. apply (f_equal unescape_quotes) in H.
    now rewrite !Hround in H. }
  repeat apply conj.
  - exact Hround.
  - exact Hinj.
  - intros d. rewrite Replace_quotes. apply escape_quotes_escaped.
  - intros x y H. apply fmt_s_injective in H. exact (Hinj x y H).
Qed.

(** ** What [JsonBody] returns *)

Lemma StringChan_cases (q : Query) :
  (exists err, StringChan q = (ClosedChan, Some err))
  \/ StringChan q = (Producer (Query_stringChan q), None).
Proof.
  unfold StringChan. destruct (Query_check q) as [e |]; [left; eexists; reflexivity |].
  destruct (StringChan_fields (Fields q)) as [e |]; [left; eexists; reflexivity |].
  right. reflexivity.
Qed.

(** X6: [JsonBody] never waits on a nil channel.  It returns an error exactly
    when [StringChan] does, the same error under one more stack and an empty
    body; it returns a body with a nil error exactly when all tokens arrive,
    the body being the wrapper around the escaped document; and it panics
    exactly when validation passes and the producer panics. *)
Theorem JsonBody_outcomes (q : Query) :
  JsonBody q <> Deadlocks
  /\ (forall err, snd (StringChan q) = Some err ->
        JsonBody q = Returns (EmptyString, Some (WithStack err)))
  /\ (forall body err, JsonBody q = Returns (body, Some err) ->
        body = EmptyString
        /\ exists e, snd (StringChan q) = Some e /\ err = WithStack e
                     /\ Cause err = Cause e)
  /\ (forall body, JsonBody q = Returns (body, None) ->
        exists doc, text_of (Query_stringChan q) = Some doc
                    /\ body = fmt_s json_open json_close (escape_quotes doc))
  /\ (JsonBody q = Panics <->
      snd (StringChan q) = None /\ Query_stringChan q = None).
Proof.
  unfold JsonBody.
  destruct (StringChan_cases q) as [[e He] | Hok]; [rewrite He | rewrite Hok];
    cbn [fst snd].
  - repeat apply conj; try discriminate.
    + intros err [= <-]. reflexivity.
    + intros body err [= <- <-]. split; [reflexivity |].
      exists e. repeat split.
    + intros [H _]; discriminate H.
  - unfold StringFromChan, range_chan.
    destruct (Query_stringChan q) as [toks |]; cbn [text_of option_map].
    + repeat apply conj; try discriminate.
      * intros body [= <-]. exists (Go.join toks). split; [reflexivity |].
        now rewrite Replace_quotes.
      * intros [_ H]; discriminate H.
    + repeat apply conj; try discriminate.
      * intros _. split; reflexivity.
      * reflexivity.
Qed.

Lemma JsonBody_outcomes_witness :
  JsonBody (SetFields (MakeQuery TypeQuery) [None])
  = Returns (EmptyString, Some (WithStack (WithStack NilFieldErr))).
Proof.
  apply (JsonBody_outcomes (SetFields (MakeQuery TypeQuery) [None])).
  reflexivity.
Defined.

(** ** The operation name *)

(** X7: when the operation type is accepted and the operation name is not
    empty and not a name, [StringChan] returns the closed channel and an error
    whose cause is [InvalidNameErr] with the kind [operationName] and the name,
    whatever the fields are; [JsonBody] passes that error on with an empty
    body. *)
Theorem StringChan_invalid_operation_name (q : Query) :
  isValidOperationType (QType q) = true ->
  QName q <> EmptyString ->
  ~ grammatical (QName q) ->
  exists err,
    StringChan q = (ClosedChan, Some err)
    /\ Cause err = InvalidNameErr operationName (QName q)
    /\ JsonBody q = Returns (EmptyString, Some (WithStack err)).
Proof.
  intros Htype Hne Hbad.
  assert (Hname : Query_checkName q
                  = Some (WithStack (InvalidNameErr operationName (QName q)))).
  { unfold Query_checkName.
    destruct (is_empty (QName q)) eqn:He;
      [apply is_empty_iff in He; contradiction |].
    destruct (Regexp.MatchString validName (QName q)) eqn:Hm; [| reflexivity].
    apply validName_grammatical in Hm. contradiction. }
  assert (Hch : StringChan q
                = (ClosedChan,
                   Some (WithStack (WithStack (WithStack
                           (InvalidNameErr operationName (QName q))))))).
  { unfold StringChan, Query_check. rewrite Htype, Hname. reflexivity. }
  eexists. split; [exact Hch |]. split; [reflexivity |].
  unfold JsonBody. rewrite Hch. reflexivity.
Qed.

Lemma StringChan_invalid_operation_name_witness :
  exists err,
    StringChan (mkQuery TypeMutation "add-user" [None])
    = (ClosedChan, Some err)
    /\ Cause err = InvalidNameErr operationName "add-user"
    /\ JsonBody (mkQuery TypeMutation "add-user" [None])
       = Returns (EmptyString, Some (WithStack err)).
Proof.
  apply (StringChan_invalid_operation_name (mkQuery TypeMutation "add-user" [None])).
  - reflexivity.
  - simpl. discriminate.
  - vm_compute. lia.
Defined.

(** ** Adding fields *)

Lemma StringChan_fields_app (a b : list (option Field)) :
  StringChan_fields (a ++ b)
  = match StringChan_fields a with
    | Some err => Some err
    | None => StringChan_fields b
    end.
Proof.
  induction a as [| [f |] a IH]; cbn [app StringChan_fields]; try reflexivity.
  destruct (Field_check f); [reflexivity | exact IH].
Qed.

Lemma fields_tokens_app (a b : list (option Field)) :
  fields_tokens (a ++ b)
  = ta <- fields_tokens a ;; tb <- fields_tokens b ;; Some (ta ++ tb).
Proof.
  induction a as [| [f |] a IH]; cbn [app fields_tokens].
  - destruct (fields_tokens b); reflexivity.
  - destruct (Field_stringChan f) as [strs |]; cbn [bind]; [| reflexivity].
    rewrite IH. destruct (fields_tokens a) as [ta |]; cbn [bind]; [| reflexivity].
    destruct (fields_tokens b) as [tb |]; cbn [bind]; [| reflexivity].
    now rewrite <- !app_assoc.
  - reflexivity.
Qed.

(** X8: [AddFields] cannot repair a query: the error [StringChan] returns for
    a query is the error it returns after any fields are added, since the
    query's own checks and its earlier fields are looked at first; and the
    longer query passes validation exactly when the query passes it and the
    added fields pass it in its place. *)
Theorem AddFields_validation (q : Query) (fs : list (option Field)) :
  (forall ch err, StringChan q = (ch, Some err) ->
                  StringChan (AddFields q fs) = (ch, Some err))
  /\ (snd (StringChan (AddFields q fs)) = None <->
      snd (StringChan q) = None /\ snd (StringChan (SetFields q fs)) = None).
Proof.
  unfold StringChan, AddFields, SetFields, Query_check, Query_checkName.
  cbn [QType QName Fields]. rewrite StringChan_fields_app.
  destruct (negb (isValidOperationType (QType q))).
  { split; [intros ch err H; exact H | split; [discriminate | intros [H _]; discriminate H]]. }
  destruct (negb (is_empty (QName q))
            && negb (Regexp.MatchString validName (QName q))).
  { split; [intros ch err H; exact H | split; [discriminate | intros [H _]; discriminate H]]. }
  destruct (StringChan_fields (Fields q)) as [e |].
  { split; [intros ch err H; exact H | split; [discriminate | intros [H _]; discriminate H]]. }
  split; [discriminate |].
  destruct (StringChan_fields fs); cbn [snd]; split; try discriminate; auto.
  intros [_ H]; discriminate H.
Qed.

Lemma AddFields_validation_witness :
  StringChan (AddFields (mkQuery "fetch" EmptyString [])
                [Some (mkField "a" EmptyString [] [])])
  = (ClosedChan, Some (WithStack (WithStack (InvalidOperationTypeErr "fetch")))).
Proof.
  apply (AddFields_validation (mkQuery "fetch" EmptyString [])
           [Some (mkField "a" EmptyString [] [])]).
  reflexivity.
Defined.

(** X9: the stream of a query is its header, the streams of its fields each
    followed by a comma, and the closing brace; after [AddFields] it is the
    same header and field tokens, then the tokens of the added fields, then
    the closing brace: no separator has to be fitted in between. *)
Theorem AddFields_appends_tokens (q : Query) (fs : list (option Field))
        (tq tf : list string) :
  fields_tokens (Fields q) = Some tq ->
  fields_tokens fs = Some tf ->
  Query_stringChan q = Some (Query_header q ++ tq ++ ["}"])
  /\ Query_stringChan (AddFields q fs)
     = Some (Query_header q ++ tq ++ tf ++ ["}"]).
Proof.
  intros Hq Hf. unfold Query_stringChan, AddFields, Query_header.
  cbn [QType QName Fields]. rewrite fields_tokens_app, Hq, Hf. cbn [bind].
  split; f_equal; now rewrite <- !app_assoc.
Qed.

Lemma AddFields_appends_tokens_witness :
  Query_stringChan q_foo
  = Some (Query_header q_foo ++ ["bar"; "("; "n"; ":"; "1"; ")"; ","] ++ ["}"])
  /\ Query_stringChan (AddFields q_foo [Some (mkField "baz" "b" [] [])])
     = Some (Query_header q_foo ++ ["bar"; "("; "n"; ":"; "1"; ")"; ","]
               ++ ["b"; ":"; "baz"; ","] ++ ["}"]).
Proof.
  apply (AddFields_appends_tokens q_foo [Some (mkField "baz" "b" [] [])]);
    reflexivity.
Defined.

(** ** Accepted names need no escaping *)

Lemma name_continue_plain (c : ascii) :
  name_continue c -> plain_byte c = true /\ Ascii.eqb c Go.dquote = false.
Proof.
  unfold name_continue, name_start, plain_byte, Json.is_control. intros Hc.
  assert (Hbs : Ascii.eqb c Go.backslash = false).
  { apply Ascii.eqb_neq. intros ->. vm_compute in Hc. lia. }
  assert (Hdq : Ascii.eqb c Go.dquote = false).
  { apply Ascii.eqb_neq. intros ->. vm_compute in Hc. lia. }
  rewrite Hbs, Hdq. split; [| reflexivity].
  cbn [negb andb]. apply negb_true_iff, Nat.ltb_ge. lia.
Qed.

Lemma all_continue_plain (s : string) :
  all_continue s ->
  forallb_string plain_byte s = true /\ escape_quotes s = s.
Proof.
  induction s as [| c s IH]; [split; reflexivity |].
  cbn [all_continue forallb_string escape_quotes]. intros [Hc Hs].
  destruct (name_continue_plain c Hc) as [Hp Hq]. destruct (IH Hs) as [IHp IHe].
  rewrite Hp, Hq, IHp, IHe. split; reflexivity.
Qed.

(** X10: an operation name that [checkName] accepts has no double quote, no
    backslash and no control character, so the escaping of [JsonBody] leaves
    it as it is. *)
Theorem accepted_operation_name_plain (q : Query) :
  Query_checkName q = None ->
  forallb_string plain_byte (QName q) = true
  /\ Go.Replace (QName q) (Go.str Go.dquote) escaped_quote = QName q.
Proof.
  unfold Query_checkName. intros Hcheck. rewrite Replace_quotes.
  destruct (QName q) as [| c s] eqn:Hname; [split; reflexivity |].
  cbn [is_empty negb andb] in Hcheck.
  destruct (Regexp.MatchString validName (String c s)) eqn:Hm;
    [| discriminate Hcheck].
  apply validName_grammatical in Hm. destruct Hm as [Hc Hs].
  apply all_continue_plain. split; [left; exact Hc | exact Hs].
Qed.

Lemma accepted_operation_name_plain_witness :
  forallb_string plain_byte "Foo_1" = true
  /\ Go.Replace "Foo_1" (Go.str Go.dquote) escaped_quote = "Foo_1".
Proof.
  apply (accepted_operation_name_plain (mkQuery TypeQuery "Foo_1" [])).
  reflexivity.
Defined.
